(** * IWAE: the importance-weighted autoencoder of [models/iwae.py]

    A shallow embedding of the [IWAE] class: its constructor, [encode],
    [decode], [reparameterize], [forward], [loss_function] and [sample].

    Tensors are a shape together with row-major data.  An entry is a real
    number, standing for a float32 that is a number: a run in which an
    entry overflows, or is not a number, is not described.  The arithmetic
    on entries is exact, but for the final [Tanh], whose result is rounded
    to float32: the range of what the decoder returns depends on it.  Python
    exceptions are the [Raise] results of an error monad.  The layers of
    [torch.nn] act on shapes by the rules of their documentation; what a
    parameterised layer computes on the entries depends on its learned
    weights and is a parameter [θ] of the development.  The lists a caller
    holds live in a store, and torch's default random number generator,
    which the constructor, [forward] and [sample] draw from, is passed
    along explicitly. *)

From Stdlib Require Import Reals Lra Lia List String.
From stdpp Require Import base gmap strings list.

Open Scope R_scope.

(** ** Exceptions and results *)

Inductive exn : Type :=
  | IndexError
  | KeyError (key : string)
  | NameError (name : string)
  | TypeError
  | ValueError
  | RuntimeError.

Inductive result (A : Type) : Type :=
  | Ok (a : A)
  | Raise (e : exn).
Arguments Ok {A} a.
Arguments Raise {A} e.

#[global] Instance result_ret : MRet result := λ A a, Ok a.
#[global] Instance result_bind : MBind result := λ A B f r,
  match r with
  | Ok a => f a
  | Raise e => Raise e
  end.

Definition raises {A} (r : result A) : Prop := ∃ e, r = Raise e.

(** ** Tensors *)

Record tensor : Type := Tensor { shape : list nat; data : list R }.

Definition numel (s : list nat) : nat := foldr Nat.mul 1%nat s.

Definition well_formed (t : tensor) : Prop :=
  length (data t) = numel (shape t).

(** A zero-dimensional tensor, as [torch.tensor(x)] builds. *)
Definition scalar (x : R) : tensor := Tensor [] [x].

Definition tmap (f : R → R) (t : tensor) : tensor :=
  Tensor (shape t) (map f (data t)).

(** Row-major index arithmetic. *)
Fixpoint unravel (s : list nat) (i : nat) : list nat :=
  match s with
  | [] => []
  | d :: s' => ((i / numel s') mod d)%nat :: unravel s' i
  end.

Definition ravel (s idx : list nat) : nat :=
  fold_left (λ acc dj, (acc * fst dj + snd dj)%nat) (combine s idx) 0%nat.

(** Broadcasting: shapes are aligned at their last dimension; two sizes are
    compatible when they are equal or one of them is 1. *)
Definition pad_shape (n : nat) (s : list nat) : list nat :=
  repeat 1%nat (n - length s) ++ s.

Fixpoint broadcast_dims (s1 s2 : list nat) : option (list nat) :=
  match s1, s2 with
  | d1 :: s1', d2 :: s2' =>
      rest ← broadcast_dims s1' s2';
      if decide (d1 = d2) then Some (d1 :: rest)
      else if decide (d1 = 1%nat) then Some (d2 :: rest)
      else if decide (d2 = 1%nat) then Some (d1 :: rest)
      else None
  | [], [] => Some []
  | _, _ => None
  end.

Definition broadcast_shapes (s1 s2 : list nat) : option (list nat) :=
  let n := (length s1 `max` length s2)%nat in
  broadcast_dims (pad_shape n s1) (pad_shape n s2).

Definition expand (out : list nat) (t : tensor) : list R :=
  let src := pad_shape (length out) (shape t) in
  map (λ i,
         let idx := zip_with (λ d j, if decide (d = 1%nat) then 0%nat else j)
                             src (unravel out i) in
         nth (ravel src idx) (data t) 0)
      (seq 0 (numel out)).

(** An entrywise binary operator of torch ([a - b], [a * b], ...). *)
Definition binop (f : R → R → R) (a b : tensor) : result tensor :=
  if decide (shape a = shape b)
  then Ok (Tensor (shape a) (zip_with f (data a) (data b)))
  else match broadcast_shapes (shape a) (shape b) with
       | Some s => Ok (Tensor s (zip_with f (expand s a) (expand s b)))
       | None => Raise RuntimeError
       end.

Definition tadd : tensor → tensor → result tensor := binop Rplus.
Definition tsub : tensor → tensor → result tensor := binop Rminus.
Definition tmul : tensor → tensor → result tensor := binop Rmult.
Definition tdiv : tensor → tensor → result tensor := binop Rdiv.

(** A Python float combined with a tensor acts on every entry. *)
Definition smul (c : R) (t : tensor) : tensor := tmap (Rmult c) t.
Definition tsquare (t : tensor) : tensor := tmap (λ x, x * x) t.
Definition tneg (t : tensor) : tensor := tmap Ropp t.
Definition texp (t : tensor) : tensor := tmap exp t.

(** [torch.flatten(t, start_dim=1)] and [t.flatten(1)]. *)
Definition flatten1 (t : tensor) : result tensor :=
  match shape t with
  | d0 :: (_ :: _) as rest => Ok (Tensor [d0; numel rest] (data t))
  | _ => Raise IndexError
  end.

(** [t.view(-1, 512, 2, 2)]: the first size is inferred from the number of
    entries, 0 for a tensor without entries. *)
Definition view_512_2_2 (t : tensor) : result tensor :=
  let n := numel (shape t) in
  if decide (n mod 2048 = 0)%nat
  then Ok (Tensor [(n / 2048)%nat; 512%nat; 2%nat; 2%nat] (data t))
  else Raise RuntimeError.

(** Reductions along one dimension.  For a shape [outer ++ n :: inner] the
    entries reduced together are those that differ in the coordinate of
    size [n] only. *)
Definition fibre (n inner : nat) (d : list R) (o i : nat) : list R :=
  map (λ k, nth ((o * n + k) * inner + i)%nat d 0) (seq 0 n).

Definition fibres (s : list nat) (dim : nat) (d : list R) : list (list R) :=
  let outer := numel (take dim s) in
  let n := nth dim s 1%nat in
  let inner := numel (drop (S dim) s) in
  flat_map (λ o, map (fibre n inner d o) (seq 0 inner)) (seq 0 outer).

Definition Rsum (l : list R) : R := foldr Rplus 0 l.
Definition Rmean (l : list R) : R := Rsum l / INR (length l).
Definition Rmaximum (l : list R) : R :=
  match l with
  | [] => 0
  | x :: l' => foldr Rmax x l'
  end.

Definition reduce_dim (f : list R → R) (dim : nat) (t : tensor)
  : result tensor :=
  match shape t with
  | [] => if decide (dim = 0%nat) then Ok (Tensor [] [f (data t)])
          else Raise IndexError
  | s => if decide (dim < length s)%nat
         then Ok (Tensor (take dim s ++ drop (S dim) s)
                         (map f (fibres s dim (data t))))
         else Raise IndexError
  end.

Definition tsum_dim : nat → tensor → result tensor := reduce_dim Rsum.
Definition tmean_dim : nat → tensor → result tensor := reduce_dim Rmean.

(** [t.mean(-1)]: the mean over the last dimension. *)
Definition tmean_last (t : tensor) : result tensor :=
  tmean_dim (length (shape t) - 1) t.

(** The normalised exponential of a list, computed as torch does, after
    the maximum is subtracted from every entry. *)
Definition softmax (l : list R) : list R :=
  let m := Rmaximum l in
  let e := map (λ x, exp (x - m)) l in
  map (λ y, y / Rsum e) e.

(** [F.softmax(t, dim=0)]. *)
Definition softmax_dim0 (t : tensor) : result tensor :=
  match shape t with
  | [] => Ok (Tensor [] (softmax (data t)))
  | n :: inner =>
      let k := numel inner in
      let cols := map (λ i, softmax (fibre n k (data t) 0 i)) (seq 0 k) in
      Ok (Tensor (n :: inner)
                 (flat_map (λ r, map (λ c, nth r c 0) cols) (seq 0 n)))
  end.

(** ** Rounding to float32 *)

(** The integer nearest to [x], the even one of two that are equally
    near. *)
Definition nearest_even (x : R) : Z :=
  let f := Int_part x in
  if Rlt_dec (x - IZR f) (1 / 2) then f
  else if Rlt_dec (1 / 2) (x - IZR f) then (f + 1)%Z
  else if Z.even f then f else (f + 1)%Z.

(** The exponent [e] with [2 ^ (e - 1) <= |x| < 2 ^ e]. *)
Definition magnitude (x : R) : Z := (Int_part (ln (Rabs x) / ln 2) + 1)%Z.

(** The float32 nearest to [x]: 24 significant bits, and no spacing below
    [2 ^ -149].  (No [x] that is rounded here is large enough to
    overflow.) *)
Definition round32 (x : R) : R :=
  let e := Z.max (magnitude x - 24) (-149) in
  IZR (nearest_even (x * powerRZ 2 (- e))) * powerRZ 2 e.

(** [torch.tanh] on a float32: the float32 nearest to the hyperbolic
    tangent.  (A library may be off by one unit in the last place; it
    stays within -1 and 1 all the same, and returns 1 for a large
    argument.) *)
Definition tanh32 (x : R) : R := round32 (tanh x).

(** ** The layers of [torch.nn] *)

#[warnings="-register-all"]
Inductive module : Type :=
  | Conv2d (in_channels out_channels kernel_size stride padding : nat)
  | ConvTranspose2d (in_channels out_channels kernel_size stride padding
                     output_padding : nat)
  | BatchNorm2d (num_features : nat)
  | LeakyReLU
  | Tanh
  | Linear (in_features out_features : nat)
  | Sequential (children : list module).

(** The size of one spatial dimension after a convolution. *)
Definition conv_out (k s p h : nat) : result nat :=
  if decide (h + 2 * p < k)%nat then Raise RuntimeError
  else Ok ((h + 2 * p - k) / s + 1)%nat.

(** The size of one spatial dimension after a transposed convolution,
    [(h - 1) * s - 2 * p + (k - 1) + op + 1]. *)
Definition conv_transpose_out (k s p op h : nat) : result nat :=
  if decide (h * s + k + op ≤ s + 2 * p)%nat then Raise RuntimeError
  else Ok (h * s + k + op - s - 2 * p)%nat.

(** What a layer without children does to the shape of its input.  Sizes
    are natural numbers.  A convolution without output channels has an
    empty weight, and calling it raises.  Whether a model is in training
    mode is the caller's choice ([train()], [eval()]) and is not part of
    the state here, so the check [BatchNorm2d] makes in training mode
    only, more than one value per channel, is left out: the one shape it
    rejects, a single image brought down to one position, is rejected by
    the linear layers after the encoder in either mode, and does not occur
    in the decoder. *)
Definition layer_shape (m : module) (s : list nat) : result (list nat) :=
  match m with
  | Conv2d cin cout k st p =>
      if decide (cout = 0%nat) then Raise RuntimeError else
      match s with
      | [n; c; h; w] =>
          if decide (c = cin) then
            h' ← conv_out k st p h; w' ← conv_out k st p w;
            Ok [n; cout; h'; w']
          else Raise RuntimeError
      | [c; h; w] =>
          if decide (c = cin) then
            h' ← conv_out k st p h; w' ← conv_out k st p w;
            Ok [cout; h'; w']
          else Raise RuntimeError
      | _ => Raise RuntimeError
      end
  | ConvTranspose2d cin cout k st p op =>
      if decide (cout = 0%nat) then Raise RuntimeError else
      match s with
      | [n; c; h; w] =>
          if decide (c = cin) then
            h' ← conv_transpose_out k st p op h;
            w' ← conv_transpose_out k st p op w;
            Ok [n; cout; h'; w']
          else Raise RuntimeError
      | [c; h; w] =>
          if decide (c = cin) then
            h' ← conv_transpose_out k st p op h;
            w' ← conv_transpose_out k st p op w;
            Ok [cout; h'; w']
          else Raise RuntimeError
      | _ => Raise RuntimeError
      end
  | BatchNorm2d c =>
      match s with
      | [_; c'; _; _] => if decide (c' = c) then Ok s else Raise RuntimeError
      | _ => Raise ValueError
      end
  | LeakyReLU | Tanh => Ok s
  | Linear fin fout =>
      match reverse s with
      | d :: outer => if decide (d = fin) then Ok (reverse (fout :: outer))
                      else Raise RuntimeError
      | [] => Raise RuntimeError
      end
  | Sequential _ => Ok s
  end.

(** [nn.LeakyReLU()] has negative slope 0.01. *)
Definition leaky_relu (x : R) : R :=
  if Rle_dec 0 x then x else x * / 100.

(** The name of a layer inside the model, as in its [state_dict]: the
    attribute and the positions below it. *)
Definition path : Type := string * list nat.

Definition child (p : path) (i : nat) : path := (p.1, p.2 ++ [i]).

Section Network.

(** The entries a parameterised layer computes from its input with the
    current values of its weights. *)
Variable θ : path → module → tensor → list R.

Definition layer_data (p : path) (m : module) (t : tensor) : list R :=
  match m with
  | LeakyReLU => map leaky_relu (data t)
  | Tanh => map tanh32 (data t)
  | Sequential _ => data t
  | _ => θ p m t
  end.

Definition apply_layer (p : path) (m : module) (t : tensor)
  : result tensor :=
  s ← layer_shape m (shape t);
  Ok (Tensor s (layer_data p m t)).

(** Calling a module; a [Sequential] calls its children in order. *)
Fixpoint apply (p : path) (m : module) (t : tensor) : result tensor :=
  match m with
  | Sequential ms =>
      (fix go (i : nat) (ms : list module) (t : tensor) : result tensor :=
         match ms with
         | [] => Ok t
         | c :: ms' => t' ← apply (child p i) c t; go (S i) ms' t'
         end) 0%nat ms t
  | _ => apply_layer p m t
  end.

(** The loop of [Sequential.forward] from child [i] on. *)
Fixpoint apply_seq (p : path) (i : nat) (ms : list module) (t : tensor)
  : result tensor :=
  match ms with
  | [] => Ok t
  | c :: ms' => t' ← apply (child p i) c t; apply_seq p (S i) ms' t'
  end.

End Network.

(** ** The model *)

Record IWAE : Type := {
  latent_dim : nat;
  num_samples : nat;
  encoder : module;
  fc_mu : module;
  fc_var : module;
  decoder_input : module;
  decoder : module;
  final_layer : module
}.

(** Python lists are objects: the caller and the constructor hold the same
    list when one is passed as [hidden_dims]. *)
Abbreviation loc := positive (only parsing).
Abbreviation heap := (gmap positive (list nat)) (only parsing).

Definition deref (σ : heap) (l : loc) : result (list nat) :=
  match σ !! l with
  | Some xs => Ok xs
  | None => Raise RuntimeError
  end.

(** [xs[-1]]. *)
Definition last_item (xs : list nat) : result nat :=
  match last xs with
  | Some x => Ok x
  | None => Raise IndexError
  end.

(** Lines 27-35: one block per entry of [hidden_dims]; [in_channels] is
    rebound to the entry after each block. *)
Fixpoint encoder_blocks (in_channels : nat) (hidden_dims : list nat)
  : list module :=
  match hidden_dims with
  | [] => []
  | h_dim :: rest =>
      Sequential [Conv2d in_channels h_dim 3 2 1; BatchNorm2d h_dim; LeakyReLU]
      :: encoder_blocks h_dim rest
  end.

(** Lines 49-60: [for i in range(len(hidden_dims) - 1)]. *)
Definition decoder_blocks (hidden_dims : list nat) : list module :=
  map (λ i, Sequential [ConvTranspose2d (nth i hidden_dims 0%nat)
                                        (nth (i + 1) hidden_dims 0%nat)
                                        3 2 1 1;
                        BatchNorm2d (nth (i + 1) hidden_dims 0%nat);
                        LeakyReLU])
      (seq 0 (length hidden_dims - 1)).

(** [IWAE.__init__]: the model, and the store of lists afterwards. *)
Definition init (σ : heap) (in_channels latent_dim : nat)
    (hidden_dims : option loc) (num_samples : nat) : result (IWAE * heap) :=
  '(l, σ) ← match hidden_dims with
            | None => let l := fresh (dom σ) in
                      Ok (l, <[l := [32; 64; 128; 256; 512]%nat]> σ)
            | Some l => Ok (l, σ)
            end;
  hd ← deref σ l;
  let encoder := Sequential (encoder_blocks in_channels hd) in
  h ← last_item hd;
  let fc_mu := Linear (h * 4) latent_dim in
  h ← last_item hd;
  let fc_var := Linear (h * 4) latent_dim in
  h ← last_item hd;
  let decoder_input := Linear latent_dim (h * 4) in
  let σ := <[l := reverse hd]> σ in
  hd ← deref σ l;
  let decoder := Sequential (decoder_blocks hd) in
  h ← last_item hd;
  let final_layer :=
    Sequential [ConvTranspose2d h h 3 2 1 1;
                BatchNorm2d h;
                LeakyReLU;
                Conv2d h 3 3 1 1;
                Tanh] in
  Ok ({| latent_dim := latent_dim;
         num_samples := num_samples;
         encoder := encoder;
         fc_mu := fc_mu;
         fc_var := fc_var;
         decoder_input := decoder_input;
         decoder := decoder;
         final_layer := final_layer |}, σ).

(** The random number generator: the standard-normal draws it will return
    and how many it has returned. *)
Record generator : Type := { draws : nat → R; position : nat }.

Definition advance (g : generator) (n : nat) : generator :=
  {| draws := draws g; position := (position g + n)%nat |}.

(** [torch.randn_like(t)]. *)
Definition randn_like (g : generator) (t : tensor) : tensor * generator :=
  let n := numel (shape t) in
  (Tensor (shape t) (map (λ i, draws g (position g + i)%nat) (seq 0 n)),
   advance g n).

(** The numbers the constructor of a layer takes from torch's default
    generator: a convolution or a linear layer fills its weight and its
    bias at random ([reset_parameters]), one number for each entry;
    a convolution leaves its bias alone when the fan-in of its weight,
    the second size times the kernel, is 0.  [BatchNorm2d] starts from
    ones and zeros. *)
Fixpoint drawn (m : module) : nat :=
  match m with
  | Conv2d cin cout k _ _ =>
      (cout * cin * k * k
       + if decide (cin * k * k = 0) then 0 else cout)%nat
  | ConvTranspose2d cin cout k _ _ _ =>
      (cin * cout * k * k
       + if decide (cout * k * k = 0) then 0 else cout)%nat
  | Linear fin fout => (fout * fin + fout)%nat
  | Sequential ms =>
      (fix sum (ms : list module) : nat :=
         match ms with
         | [] => 0%nat
         | c :: ms' => (drawn c + sum ms')%nat
         end) ms
  | _ => 0%nat
  end.

Definition initial_draws (m : IWAE) : nat :=
  (drawn (encoder m) + drawn (fc_mu m) + drawn (fc_var m)
   + drawn (decoder_input m) + drawn (decoder m) + drawn (final_layer m))%nat.

(** [IWAE.__init__] with the default generator as part of the state:
    [init] says which layers are built and what happens to the lists, and
    every layer that is built draws its initial parameters. *)
Definition construct (g : generator) (σ : heap) (in_channels latent_dim : nat)
    (hidden_dims : option loc) (num_samples : nat)
  : result (IWAE * heap * generator) :=
  '(m, σ) ← init σ in_channels latent_dim hidden_dims num_samples;
  Ok (m, σ, advance g (initial_draws m)).

(** Unpacking a list into two names. *)
Definition unpack2 (ts : list tensor) : result (tensor * tensor) :=
  match ts with
  | [a; b] => Ok (a, b)
  | _ => Raise ValueError
  end.

(** [IWAE.reparameterize]. *)
Definition reparameterize (g : generator) (mu logvar : tensor)
  : result (tensor * generator) :=
  let std := texp (smul (1 / 2) logvar) in
  let '(eps, g) := randn_like g std in
  es ← tmul eps std;
  z ← tadd es mu;
  Ok (z, g).

Section Model.

Variable θ : path → module → tensor → list R.
Variable self : IWAE.

(** [IWAE.encode]. *)
Definition encode (input : tensor) : result (list tensor) :=
  result ← apply θ ("encoder"%string, []) (encoder self) input;
  result ← flatten1 result;
  mu ← apply θ ("fc_mu"%string, []) (fc_mu self) result;
  log_var ← apply θ ("fc_var"%string, []) (fc_var self) result;
  Ok [mu; log_var].

(** [IWAE.decode]. *)
Definition decode (z : tensor) : result tensor :=
  result ← apply θ ("decoder_input"%string, []) (decoder_input self) z;
  result ← view_512_2_2 result;
  result ← apply θ ("decoder"%string, []) (decoder self) result;
  result ← apply θ ("final_layer"%string, []) (final_layer self) result;
  Ok result.

(** [IWAE.forward]. *)
Definition forward (g : generator) (input : tensor)
  : result (list tensor * generator) :=
  ml ← encode input;
  '(mu, log_var) ← unpack2 ml;
  '(z, g) ← reparameterize g mu log_var;
  d ← tsub z mu;
  eps ← tdiv d log_var;
  recons ← decode z;
  Ok ([recons; input; mu; log_var; z; eps], g).

End Model.

(** ** Sampling images *)


Section Sample.

Variable θ : path → module → tensor → list R.

(** [t.cuda(device)].  A tensor here carries no device: the call is a
    parameter, which returns the tensor it is given where the device is
    available and raises where it is not. *)
Variable cuda : nat → tensor → result tensor.

Variable self : IWAE.


End Sample.

(** ** The objective *)

(** The values a name of the file can be bound to. *)
Inductive pyobj : Type :=
  | PyTensor (t : tensor)
  | PyFloat (x : R)
  | PyModule (name : string)
  | PyClass (name : string).

Definition as_tensor (o : pyobj) : result tensor :=
  match o with
  | PyTensor t => Ok t
  | PyFloat x => Ok (scalar x)
  | _ => Raise TypeError
  end.

(** [args[i]] and [kwargs[k]]. *)
Definition item (args : list tensor) (i : nat) : result tensor :=
  match args !! i with
  | Some t => Ok t
  | None => Raise IndexError
  end.

Definition kwarg (kwargs : gmap string R) (k : string) : result R :=
  match kwargs !! k with
  | Some x => Ok x
  | None => Raise (KeyError k)
  end.

Section Objective.

(** The names that [from .types_ import *] binds (line 5), in the order in
    which that module defines them.  The module is not part of the sources
    at hand: it holds the type aliases that annotations such as [List] and
    [Tensor] refer to, and which names these are is left open. *)
Variable types_ : list string.

(** The names bound at the top level of [iwae.py] by its imports (lines
    1-6) and by the class statement, the latest binding first. *)
Definition module_globals : gmap string pyobj :=
  list_to_map
    ([("IWAE", PyClass "IWAE");
      ("np", PyModule "numpy")]%string
     ++ map (λ n, (n, PyClass n)) (reverse types_)
     ++ [("F", PyModule "torch.nn.functional");
         ("nn", PyModule "torch.nn");
         ("BaseVAE", PyClass "BaseVAE");
         ("torch", PyModule "torch")]%string).

(** Reading a name that no statement of the function assigns: it is looked
    up among the names of the file when the line runs. *)
Definition load_global (name : string) : result pyobj :=
  match module_globals !! name with
  | Some o => Ok o
  | None => Raise (NameError name)
  end.

(** Lines 146-147, the importance weights. *)
Definition importance_weights (E_log_p_z E_log_q_z : tensor)
  : result tensor :=
  recons_loss ← load_global "recons_loss" ≫= as_tensor;
  w ← tadd recons_loss E_log_p_z;
  log_weight ← tsub w E_log_q_z;
  softmax_dim0 log_weight.

(** [IWAE.loss_function]. *)
Definition loss_function (self : IWAE) (args : list tensor)
    (kwargs : gmap string R) : result (gmap string tensor) :=
  recons ← item args 0;
  input ← item args 1;
  mu ← item args 2;
  log_var ← item args 3;
  z ← item args 4;
  eps ← item args 5;
  kld_weight ← kwarg kwargs "M_N";
  d ← tsub recons input;
  f ← flatten1 (tsquare d);
  log_p_x_z ← tmean_last f;
  let pi := scalar PI in
  let half_log_2pi := smul (1 / 2) (tmap ln (smul 2 pi)) in
  a ← tsub (smul (- (1 / 2)) (tsquare eps)) half_log_2pi;
  b ← tsub a log_var;
  E_log_q_z ← tsum_dim 1 b;
  a ← tsub (smul (- (1 / 2)) (tsquare z)) half_log_2pi;
  E_log_p_z ← tsum_dim 1 a;
  weight ← importance_weights E_log_p_z E_log_q_z;
  d ← tsub E_log_q_z E_log_p_z;
  kld_loss ← tmean_dim 0 d;
  recons_loss ← load_global "recons_loss" ≫= as_tensor;
  s ← tadd recons_loss (smul kld_weight kld_loss);
  p ← tmul weight s;
  loss ← tsum_dim 0 p;
  recons_loss ← load_global "recons_loss" ≫= as_tensor;
  rl ← tmean_dim 0 recons_loss;
  Ok (<["loss"%string := loss]>
        (<["Reconstruction Loss"%string := rl]>
           {["KLD"%string := tneg kld_loss]})).

End Objective.

(** ** Notions used in the statements *)

(** The noise that [reparameterize] turned into [z], recovered from it:
    [(z - mu) / exp(0.5 * log_var)]. *)
Definition recovered_noise (mu log_var z : tensor) : result tensor :=
  d ← tsub z mu;
  tdiv d (texp (smul (1 / 2) log_var)).

(** The height or width after one block of the encoder (kernel 3, stride 2,
    padding 1), and after [k] blocks. *)
Definition halve (h : nat) : nat := ((h + 2 * 1 - 3) / 2 + 1)%nat.

Fixpoint halvings (k h : nat) : nat :=
  match k with
  | O => h
  | S k' => halvings k' (halve h)
  end.

(** The number of blocks of the encoder. *)
Definition depth (m : IWAE) : nat :=
  match encoder m with
  | Sequential blocks => length blocks
  | _ => 0%nat
  end.

(** The list the constructor works with: the one of the caller, or the
    default of line 24. *)
Definition hidden_dims_of (σ : heap) (hidden_dims : option loc)
  : option (list nat) :=
  match hidden_dims with
  | Some l => σ !! l
  | None => Some [32; 64; 128; 256; 512]%nat
  end.


(** ** Instances used in the examples *)

(** A network all of whose weights are zero: every parameterised layer
    returns its bias in every entry, 2 for [fc_var] and 0 elsewhere. *)
Definition bias_only (p : path) (m : module) (t : tensor) : list R :=
  match layer_shape m (shape t) with
  | Ok s => repeat (if decide (p.1 = "fc_var"%string) then 2 else 0) (numel s)
  | Raise _ => []
  end.

(** A network every parameterised layer of which returns 100 in every
    entry (weights zero, biases 100). *)
Definition saturated (p : path) (m : module) (t : tensor) : list R :=
  match layer_shape m (shape t) with
  | Ok s => repeat 100 (numel s)
  | Raise _ => []
  end.

(** A generator whose draws are all 1. *)
Definition ones : generator := {| draws := λ _, 1; position := 0 |}.

Definition zeros (s : list nat) : tensor := Tensor s (repeat 0 (numel s)).

(** [IWAE(3, 1, hidden_dims)] for a list [hidden_dims = [512]] held by the
    caller at location 1. *)
Definition tiny_store : gmap positive (list nat) :=
  {[ 1%positive := [512%nat] ]}.

Definition tiny : IWAE :=
  {| latent_dim := 1;
     num_samples := 5;
     encoder := Sequential (encoder_blocks 3 [512%nat]);
     fc_mu := Linear (512 * 4) 1;
     fc_var := Linear (512 * 4) 1;
     decoder_input := Linear 1 (512 * 4);
     decoder := Sequential (decoder_blocks [512%nat]);
     final_layer := Sequential [ConvTranspose2d 512 512 3 2 1 1;
                                BatchNorm2d 512;
                                LeakyReLU;
                                Conv2d 512 3 3 1 1;
                                Tanh] |}.

(** * Properties *)

(** ** The error monad *)

Lemma bind_ok_inv {A B} (r : result A) (k : A → result B) (b : B) :
  r ≫= k = Ok b → ∃ a, r = Ok a ∧ k a = Ok b.
Proof. destruct r as [a|e]; simpl; [eauto | discriminate]. Qed.

(** Evaluation of a closed run, leaving the real numbers alone. *)
Ltac run :=
  cbv -[Rplus Rmult Rminus Rdiv Ropp Rinv tanh tanh32 leaky_relu IZR exp ln
        PI].

Ltac run_prefix :=
  cbv -[importance_weights load_global as_tensor
        Rplus Rmult Rminus Rdiv Ropp Rinv tanh tanh32 leaky_relu IZR exp ln
        PI].

Ltac run_shapes :=
  cbv -[repeat Rplus Rmult Rminus Rdiv Ropp Rinv tanh tanh32 leaky_relu IZR
        exp ln PI].

(** One statement further in a run that is shown to end in an exception. *)
Ltac step_raise :=
  match goal with
  | |- raises (Raise _) => eexists; reflexivity
  | |- raises (Raise _ ≫= _) => eexists; reflexivity
  | |- raises (?r ≫= _) =>
      let a := fresh "a" in
      let e := fresh "e" in
      destruct r as [a|e]; [cbn [mbind result_bind] | eexists; reflexivity]
  end.

(** ** Tensor operations on small inputs *)

Example tsub_same_shape (a b c d : R) :
  tsub (Tensor [2%nat] [a; b]) (Tensor [2%nat] [c; d])
  = Ok (Tensor [2%nat] [a - c; b - d]).
Proof. reflexivity. Qed.

Example tsub_broadcast_scalar (a b c d x : R) :
  tsub (Tensor [2; 2]%nat [a; b; c; d]) (scalar x)
  = Ok (Tensor [2; 2]%nat [a - x; b - x; c - x; d - x]).
Proof. reflexivity. Qed.

Example tadd_broadcast_row (a b c d x y : R) :
  tadd (Tensor [2; 2]%nat [a; b; c; d]) (Tensor [2%nat] [x; y])
  = Ok (Tensor [2; 2]%nat [a + x; b + y; c + x; d + y]).
Proof. reflexivity. Qed.

Example tadd_incompatible (a b c x y : R) :
  tadd (Tensor [3%nat] [a; b; c]) (Tensor [2%nat] [x; y]) = Raise RuntimeError.
Proof. reflexivity. Qed.

Example tsum_dim_1 (a b c d e f : R) :
  tsum_dim 1 (Tensor [2; 3]%nat [a; b; c; d; e; f])
  = Ok (Tensor [2%nat] [a + (b + (c + 0)); d + (e + (f + 0))]).
Proof. reflexivity. Qed.

Example tsum_dim_0 (a b c d e f : R) :
  tsum_dim 0 (Tensor [2; 3]%nat [a; b; c; d; e; f])
  = Ok (Tensor [3%nat] [a + (d + 0); b + (e + 0); c + (f + 0)]).
Proof. reflexivity. Qed.

Example flatten1_image (a b c d : R) :
  flatten1 (Tensor [1; 1; 2; 2]%nat [a; b; c; d])
  = Ok (Tensor [1; 4]%nat [a; b; c; d]).
Proof. reflexivity. Qed.

Example flatten1_vector (a b : R) :
  flatten1 (Tensor [2%nat] [a; b]) = Raise IndexError.
Proof. reflexivity. Qed.

(** ** The normalised exponential *)

Lemma Rsum_pos (l : list R) : l ≠ [] → Forall (λ x, 0 < x) l → 0 < Rsum l.
Proof.
  intros Hne Hall. destruct Hall as [|x l Hx Hl]; [done|]. clear Hne. simpl.
  assert (0 <= Rsum l); [|lra].
  induction Hl as [|y l Hy Hl IH]; simpl; lra.
Qed.

Lemma Rsum_scale (c : R) (l : list R) :
  Rsum (map (λ y, y / c) l) = Rsum l / c.
Proof. induction l as [|x l IH]; simpl; [lra | rewrite IH; lra]. Qed.

Lemma softmax_length (l : list R) : length (softmax l) = length l.
Proof. unfold softmax. by rewrite !length_map. Qed.

Lemma exp_shifted_pos (m : R) (l : list R) :
  Forall (λ y, 0 < y) (map (λ x, exp (x - m)) l).
Proof. apply Forall_map, Forall_forall. intros; apply exp_pos. Qed.

(** Every weight the normalised exponential returns is positive. *)
Lemma softmax_pos (l : list R) : Forall (λ w, 0 < w) (softmax l).
Proof.
  unfold softmax. destruct l as [|x l]; [constructor|].
  set (m := Rmaximum (x :: l)).
  pose proof (exp_shifted_pos m (x :: l)) as He.
  assert (0 < Rsum (map (λ x0, exp (x0 - m)) (x :: l)))
    by (apply Rsum_pos; [done | exact He]).
  apply Forall_map. eapply Forall_impl; [exact He|].
  intros y Hy; simpl in *. apply Rdiv_lt_0_compat; lra.
Qed.

(** Over a batch that is not empty the weights add up to one. *)
Lemma softmax_sum (l : list R) : l ≠ [] → Rsum (softmax l) = 1.
Proof.
  intros Hne. unfold softmax. set (m := Rmaximum l).
  pose proof (exp_shifted_pos m l) as He.
  assert (0 < Rsum (map (λ x0, exp (x0 - m)) l)).
  { apply Rsum_pos; [|exact He]. destruct l; done. }
  rewrite Rsum_scale. field. lra.
Qed.

Example softmax_empty : Rsum (softmax []) = 0.
Proof. reflexivity. Qed.

Lemma map_nth_seq (d : list R) :
  map (λ k, nth k d 0) (seq 0 (length d)) = d.
Proof.
  apply list_eq. intros i. rewrite list_lookup_fmap.
  destruct (decide (i < length d)%nat) as [Hi|Hi].
  - rewrite lookup_seq_lt by done. simpl.
    destruct (lookup_lt_is_Some_2 d i Hi) as [x Hx]. rewrite Hx.
    f_equal. by apply nth_lookup_Some with (d := 0) in Hx.
  - rewrite lookup_seq_ge by lia. simpl. symmetry.
    apply lookup_ge_None_2. lia.
Qed.

(** On a vector with one entry per sample, [F.softmax(_, dim=0)] is the
    normalised exponential of its entries. *)
Lemma softmax_dim0_vector (d : list R) :
  softmax_dim0 (Tensor [length d] d) = Ok (Tensor [length d] (softmax d)).
Proof.
  unfold softmax_dim0. cbn [shape data numel foldr seq map fibre].
  do 2 f_equal.
  assert (E : fibre (length d) 1 d 0 0 = d).
  { unfold fibre. etransitivity; [|apply (map_nth_seq d)].
    apply map_ext. intros k. f_equal. lia. }
  rewrite E. rewrite <- (softmax_length d).
  etransitivity; [|apply (map_nth_seq (softmax d))].
  induction (seq 0 (length (softmax d))) as [|r rs IH]; [done|].
  cbn [flat_map map app]. by rewrite IH.
Qed.

(** ** Layers *)

Lemma apply_layer_inv θ p m t t' :
  apply_layer θ p m t = Ok t' →
  layer_shape m (shape t) = Ok (shape t') ∧ data t' = layer_data θ p m t.
Proof.
  unfold apply_layer. intros H.
  apply bind_ok_inv in H as (s & E & H). injection H as <-. done.
Qed.

Lemma apply_layer_ok θ p m t s :
  layer_shape m (shape t) = Ok s →
  apply_layer θ p m t = Ok (Tensor s (layer_data θ p m t)).
Proof. intros H. unfold apply_layer. by rewrite H. Qed.

Lemma layer_shape_conv cin cout k st p s s' :
  layer_shape (Conv2d cin cout k st p) s = Ok s' →
  (∃ n h w h' w', s = [n; cin; h; w] ∧ s' = [n; cout; h'; w'])
  ∨ (∃ h w h' w', s = [cin; h; w] ∧ s' = [cout; h'; w']).
Proof.
  simpl. intros H. destruct (decide (cout = 0%nat)); [discriminate|].
  destruct s as [|a [|b [|c [|d [|? ?]]]]]; try discriminate H.
  - right. destruct (decide (a = cin)); [subst|discriminate].
    apply bind_ok_inv in H as (h' & _ & H).
    apply bind_ok_inv in H as (w' & _ & H). injection H as <-. eauto 10.
  - left. destruct (decide (b = cin)); [subst|discriminate].
    apply bind_ok_inv in H as (h' & _ & H).
    apply bind_ok_inv in H as (w' & _ & H). injection H as <-. eauto 10.
Qed.

Lemma layer_shape_batch_norm c s s' :
  layer_shape (BatchNorm2d c) s = Ok s' →
  ∃ n h w, s = [n; c; h; w] ∧ s' = s.
Proof.
  simpl. intros H.
  destruct s as [|a [|b [|c' [|d [|? ?]]]]]; try discriminate H.
  destruct (decide (b = c)); [subst|discriminate]. injection H as <-. eauto.
Qed.

Lemma layer_shape_linear fin fout n d s' :
  layer_shape (Linear fin fout) [n; d] = Ok s' → d = fin ∧ s' = [n; fout].
Proof.
  simpl. change (reverse [n; d]) with [d; n]. intros H.
  destruct (decide (d = fin)); [|discriminate]. injection H as <-. done.
Qed.

Lemma layer_shape_linear_ok fin fout n :
  layer_shape (Linear fin fout) [n; fin] = Ok [n; fout].
Proof.
  unfold layer_shape. change (reverse [n; fin]) with [fin; n]. cbv beta iota.
  by rewrite decide_True.
Qed.

Lemma apply_Sequential θ p ms t :
  apply θ p (Sequential ms) t = apply_seq θ p 0 ms t.
Proof.
  cbn [apply]. generalize 0%nat. revert t.
  induction ms as [|c ms IH]; intros t i; cbn [apply_seq]; [reflexivity|].
  destruct (apply θ (child p i) c t) as [t'|e]; cbn [mbind result_bind];
    [apply IH | reflexivity].
Qed.

Lemma conv_out_halve h : (1 ≤ h)%nat → conv_out 3 2 1 h = Ok (halve h).
Proof. intros H. unfold conv_out. rewrite decide_False by lia. reflexivity. Qed.

Lemma halve_pos h : (1 ≤ halve h)%nat.
Proof. unfold halve. lia. Qed.

(** ** The constructor *)

(** What a model that [__init__] returned looks like, in terms of the
    list [xs] that [hidden_dims] held when the constructor was called. *)
Lemma init_inv σ ic ld hd ns m σ' :
  init σ ic ld hd ns = Ok (m, σ') →
  ∃ xs h0 h1, last xs = Some h0 ∧ head xs = Some h1
    ∧ m = {| latent_dim := ld;
             num_samples := ns;
             encoder := Sequential (encoder_blocks ic xs);
             fc_mu := Linear (h0 * 4) ld;
             fc_var := Linear (h0 * 4) ld;
             decoder_input := Linear ld (h0 * 4);
             decoder := Sequential (decoder_blocks (reverse xs));
             final_layer := Sequential [ConvTranspose2d h1 h1 3 2 1 1;
                                        BatchNorm2d h1;
                                        LeakyReLU;
                                        Conv2d h1 3 3 1 1;
                                        Tanh] |}.
Proof.
  unfold init. intros H.
  apply bind_ok_inv in H as ([l σ1] & _ & H).
  apply bind_ok_inv in H as (xs & _ & H).
  apply bind_ok_inv in H as (h0 & E0 & H).
  cbn beta zeta in H. rewrite E0 in H. cbn [mbind result_bind] in H.
  unfold deref in H. rewrite lookup_insert_eq in H.
  cbn [mbind result_bind] in H.
  apply bind_ok_inv in H as (h1 & E1 & H). injection H as <- _.
  exists xs, h0, h1. unfold last_item in E0, E1.
  destruct (last xs) as [a|] eqn:La; [|discriminate]. injection E0 as ->.
  destruct (last (reverse xs)) as [b|] eqn:Lb; [|discriminate].
  injection E1 as ->. rewrite last_reverse in Lb. done.
Qed.

(** The model the constructor builds from the list [xs] it works with. *)
Lemma init_spec (σ : gmap positive (list nat)) ic ld hd ns m σ' xs :
  hidden_dims_of σ hd = Some xs →
  init σ ic ld hd ns = Ok (m, σ') →
  ∃ h0 h1, last xs = Some h0 ∧ head xs = Some h1
    ∧ m = {| latent_dim := ld;
             num_samples := ns;
             encoder := Sequential (encoder_blocks ic xs);
             fc_mu := Linear (h0 * 4) ld;
             fc_var := Linear (h0 * 4) ld;
             decoder_input := Linear ld (h0 * 4);
             decoder := Sequential (decoder_blocks (reverse xs));
             final_layer := Sequential [ConvTranspose2d h1 h1 3 2 1 1;
                                        BatchNorm2d h1;
                                        LeakyReLU;
                                        Conv2d h1 3 3 1 1;
                                        Tanh] |}.
Proof.
  intros Hx H. unfold init in H.
  assert (∃ l σ1, (match hd with
            | Some l => Ok (l, σ)
            | None => Ok (fresh (dom σ),
                          <[fresh (dom σ):=[32; 64; 128; 256; 512]%nat]> σ)
            end) = Ok (l, σ1) ∧ σ1 !! l = Some xs) as (l & σ1 & E & Hl).
  { destruct hd as [l|]; simpl in Hx.
    - eauto.
    - injection Hx as <-. eexists _, _. split; [reflexivity|].
      by rewrite lookup_insert_eq. }
  rewrite E in H. cbn [mbind result_bind] in H.
  unfold deref in H. rewrite Hl in H. cbn [mbind result_bind] in H.
  apply bind_ok_inv in H as (h0 & E0 & H).
  cbn beta zeta in H. rewrite E0 in H. cbn [mbind result_bind] in H.
  rewrite lookup_insert_eq in H. cbn [mbind result_bind] in H.
  apply bind_ok_inv in H as (h1 & E1 & H). injection H as <- _.
  exists h0, h1. unfold last_item in E0, E1.
  destruct (last xs) as [a|] eqn:La; [|discriminate]. injection E0 as ->.
  destruct (last (reverse xs)) as [b|] eqn:Lb; [|discriminate].
  injection E1 as ->. rewrite last_reverse in Lb. done.
Qed.

Lemma init_tiny : init tiny_store 3 1 (Some 1%positive) 5 = Ok (tiny, tiny_store).
Proof. vm_compute. reflexivity. Qed.

Lemma encoder_blocks_length cin xs :
  length (encoder_blocks cin xs) = length xs.
Proof. revert cin. induction xs; intros; simpl; auto. Qed.

(** ** The encoder *)

Lemma apply_block_conv θ p cin cout t t' :
  apply θ p (Sequential [Conv2d cin cout 3 2 1; BatchNorm2d cout; LeakyReLU]) t
    = Ok t' →
  ∃ n h w h' w', shape t = [n; cin; h; w] ∧ shape t' = [n; cout; h'; w'].
Proof.
  cbn [apply]. intros H.
  apply bind_ok_inv in H as (t0 & E & H).
  apply bind_ok_inv in H as (t1 & E0 & H).
  apply bind_ok_inv in H as (t2 & E1 & H). injection H as <-.
  apply apply_layer_inv in E as [E _], E0 as [E0 _], E1 as [E1 _].
  apply layer_shape_batch_norm in E0 as (n & h' & w' & E0 & E0').
  simpl in E1. injection E1 as E1.
  apply layer_shape_conv in E
    as [(n1 & h & w & h1 & w1 & E2 & E3)|(h & w & h1 & w1 & E2 & E3)];
    rewrite E3 in E0; simplify_eq.
  exists n, h, w, h', w'. split; [done|]. congruence.
Qed.

Lemma apply_encoder_blocks θ p hd : ∀ i cin t t' c,
  last hd = Some c →
  apply_seq θ p i (encoder_blocks cin hd) t = Ok t' →
  ∃ n h w h' w', shape t = [n; cin; h; w] ∧ shape t' = [n; c; h'; w'].
Proof.
  induction hd as [|h_dim rest IH]; intros i cin t t' c Hlast H; [discriminate|].
  cbn [encoder_blocks apply_seq] in H.
  apply bind_ok_inv in H as (t0 & E & H).
  apply apply_block_conv in E as (n & h & w & h' & w' & Ht & Ht0).
  destruct rest as [|h2 rest'].
  - simpl in H, Hlast. simplify_eq. eauto 10.
  - apply (IH _ _ _ _ c) in H as (n2 & h2' & w2 & h3 & w3 & E1 & E2);
      [|by rewrite last_cons_cons in Hlast].
    rewrite Ht0 in E1. simplify_eq. eauto 10.
Qed.

Lemma apply_block_conv_ok θ p cin cout t n h w :
  (0 < cout)%nat →
  shape t = [n; cin; h; w] → (1 ≤ h)%nat → (1 ≤ w)%nat →
  ∃ t', apply θ p (Sequential [Conv2d cin cout 3 2 1; BatchNorm2d cout;
                               LeakyReLU]) t = Ok t'
        ∧ shape t' = [n; cout; halve h; halve w].
Proof.
  intros Hc Hs Hh Hw. cbn [apply].
  rewrite (apply_layer_ok θ _ (Conv2d cin cout 3 2 1) t
             [n; cout; halve h; halve w]).
  2: { rewrite Hs. cbn [layer_shape]. rewrite decide_False by lia.
       rewrite decide_True by done. by rewrite !conv_out_halve. }
  cbn [mbind result_bind].
  rewrite (apply_layer_ok θ _ (BatchNorm2d cout) _ [n; cout; halve h; halve w])
    by (cbn [layer_shape shape]; by rewrite decide_True).
  cbn [mbind result_bind].
  rewrite (apply_layer_ok θ _ LeakyReLU _ [n; cout; halve h; halve w])
    by reflexivity.
  cbn [mbind result_bind]. eexists. split; reflexivity.
Qed.

Lemma apply_encoder_blocks_ok θ p xs : ∀ i cin t n h w,
  Forall (λ c, 0 < c)%nat xs →
  shape t = [n; cin; h; w] → (1 ≤ h)%nat → (1 ≤ w)%nat →
  ∃ t', apply_seq θ p i (encoder_blocks cin xs) t = Ok t'
        ∧ shape t' = [n; default cin (last xs);
                      halvings (length xs) h; halvings (length xs) w].
Proof.
  induction xs as [|h_dim rest IH]; intros i cin t n h w Hp Hs Hh Hw.
  - exists t. done.
  - cbn [encoder_blocks apply_seq].
    apply Forall_cons in Hp as [Hp0 Hp].
    destruct (apply_block_conv_ok θ (child p i) cin h_dim t n h w Hp0 Hs Hh Hw)
      as (t0 & E & Hs0).
    rewrite E. cbn [mbind result_bind].
    destruct (IH (S i) h_dim t0 n (halve h) (halve w) Hp Hs0
                 (halve_pos h) (halve_pos w)) as (t' & E' & Hs').
    exists t'. split; [exact E'|]. rewrite Hs'. cbn [length halvings].
    destruct rest as [|h2 rest]; [reflexivity|]. rewrite last_cons_cons.
    destruct (last (h2 :: rest)) eqn:L; [reflexivity|].
    by apply last_None in L.
Qed.

(** Whatever [encode] returns is a pair of tensors with one row of
    [latent_dim] entries per image of the batch. *)
Lemma encode_shapes θ σ ic ld hd ns m σ' x r :
  init σ ic ld hd ns = Ok (m, σ') →
  encode θ m x = Ok r →
  ∃ mu log_var n, r = [mu; log_var] ∧ head (shape x) = Some n
    ∧ shape mu = [n; ld] ∧ shape log_var = [n; ld].
Proof.
  intros Hi He. apply init_inv in Hi as (xs & h0 & h1 & L0 & _ & ->).
  unfold encode in He. cbn [encoder fc_mu fc_var] in He.
  apply bind_ok_inv in He as (t0 & E0 & He).
  apply bind_ok_inv in He as (t1 & E1 & He).
  apply bind_ok_inv in He as (mu & E2 & He).
  apply bind_ok_inv in He as (lv & E3 & He). injection He as <-.
  rewrite apply_Sequential in E0.
  eapply apply_encoder_blocks in E0 as (n & h & w & h' & w' & Hx & Ht0);
    [|exact L0].
  unfold flatten1 in E1. rewrite Ht0 in E1. injection E1 as <-.
  cbn [apply] in E2, E3.
  apply apply_layer_inv in E2 as [E2 _], E3 as [E3 _].
  cbn [shape] in E2, E3.
  apply layer_shape_linear in E2 as [_ E2], E3 as [_ E3].
  exists mu, lv, n. rewrite Hx. done.
Qed.

(** [encode] returns on every batch of images with the configured number
    of channels whose height and width the encoder brings down to four
    positions. *)
Lemma encode_total θ (σ : gmap positive (list nat)) ic ld hd ns m σ' xs
    x n h w :
  hidden_dims_of σ hd = Some xs → Forall (λ c, 0 < c)%nat xs →
  init σ ic ld hd ns = Ok (m, σ') →
  shape x = [n; ic; h; w] → (1 ≤ h)%nat → (1 ≤ w)%nat →
  (halvings (depth m) h * halvings (depth m) w = 4)%nat →
  ∃ mu log_var, encode θ m x = Ok [mu; log_var]
    ∧ shape mu = [n; ld] ∧ shape log_var = [n; ld].
Proof.
  intros Hx Hp Hi Hs Hh Hw Hk.
  destruct (init_spec _ _ _ _ _ _ _ _ Hx Hi) as (h0 & h1 & L0 & _ & ->).
  unfold depth in Hk. cbn [encoder] in Hk. rewrite encoder_blocks_length in Hk.
  unfold encode. cbn [encoder fc_mu fc_var]. rewrite apply_Sequential.
  destruct (apply_encoder_blocks_ok θ ("encoder"%string, []) xs 0 ic x n h w
              Hp Hs Hh Hw) as (t0 & E0 & Hs0).
  rewrite L0 in Hs0. change (default ic (Some h0)) with h0 in Hs0.
  rewrite E0. cbn [mbind result_bind].
  unfold flatten1. rewrite Hs0. cbn [mbind result_bind apply].
  assert (Hn : numel [h0; halvings (length xs) h; halvings (length xs) w]
               = (h0 * 4)%nat).
  { cbn [numel foldr]. rewrite Nat.mul_1_r, Hk. reflexivity. }
  rewrite Hn.
  rewrite (apply_layer_ok θ _ (Linear (h0 * 4) ld) _ [n; ld])
    by apply layer_shape_linear_ok.
  cbn [mbind result_bind].
  rewrite (apply_layer_ok θ _ (Linear (h0 * 4) ld) _ [n; ld])
    by apply layer_shape_linear_ok.
  cbn [mbind result_bind].
  eexists _, _. repeat split; reflexivity.
Qed.


(** ** The decoder *)

Lemma tanh_bounds x : -1 < tanh x < 1.
Proof.
  unfold tanh, sinh, cosh.
  pose proof (exp_pos x). pose proof (exp_pos (- x)).
  replace ((exp x - exp (- x)) / 2 / ((exp x + exp (- x)) / 2))
    with ((exp x - exp (- x)) / (exp x + exp (- x))) by (field; lra).
  split; apply Rmult_lt_reg_r with (exp x + exp (- x)); try lra;
    unfold Rdiv; rewrite Rmult_assoc, Rinv_l by lra; lra.
Qed.

(** ** Rounding to float32 *)

Lemma Int_part_spec (r : R) : IZR (Int_part r) <= r < IZR (Int_part r) + 1.
Proof. destruct (base_Int_part r). lra. Qed.

Lemma Int_part_unique (r : R) (z : Z) : IZR z <= r < IZR z + 1 → Int_part r = z.
Proof.
  intros [H1 H2]. unfold Int_part.
  assert (z + 1 = up r)%Z; [|lia].
  apply tech_up; rewrite plus_IZR; lra.
Qed.

Lemma nearest_even_bounds (x : R) (m : Z) :
  - IZR m < x < IZR m → (- m <= nearest_even x <= m)%Z.
Proof.
  intros [H1 H2]. destruct (Int_part_spec x) as [Hf1 Hf2].
  set (f := Int_part x) in *.
  assert (f < m)%Z by (apply lt_IZR; lra).
  assert (- m <= f)%Z.
  { assert (- m < f + 1)%Z; [|lia]. apply lt_IZR. rewrite plus_IZR, opp_IZR. lra. }
  unfold nearest_even. fold f.
  destruct (Rlt_dec _ _); [lia|]. destruct (Rlt_dec _ _); [lia|].
  destruct (Z.even f); lia.
Qed.

Lemma powerRZ_2_nonneg (k : Z) : (0 <= k)%Z → powerRZ 2 k = IZR (2 ^ k).
Proof.
  intros H. rewrite <- (Z2Nat.id k H). rewrite <- pow_powerRZ.
  symmetry. rewrite <- pow_IZR. reflexivity.
Qed.

Lemma ln_abs_le_0 (y : R) : Rabs y < 1 → ln (Rabs y) <= 0.
Proof.
  intros H. destruct (Rle_lt_dec (Rabs y) 0) as [H0|H0].
  - unfold ln. destruct (Rlt_dec 0 (Rabs y)); [exfalso; lra|lra].
  - pose proof (ln_increasing (Rabs y) 1 H0 H) as Hl. rewrite ln_1 in Hl. lra.
Qed.

Lemma ln_2_pos : 0 < ln 2.
Proof.
  pose proof (ln_increasing 1 2 ltac:(lra) ltac:(lra)) as H.
  rewrite ln_1 in H. exact H.
Qed.

Lemma round32_unit (y : R) : Rabs y < 1 → -1 <= round32 y <= 1.
Proof.
  intros Hy. unfold round32.
  set (e := Z.max (magnitude y - 24) (-149)).
  assert (He : (e <= 0)%Z).
  { unfold e, magnitude.
    assert (Int_part (ln (Rabs y) / ln 2) <= 0)%Z; [|lia].
    apply le_IZR. destruct (Int_part_spec (ln (Rabs y) / ln 2)) as [H1 _].
    pose proof (ln_abs_le_0 y Hy). pose proof ln_2_pos.
    assert (ln (Rabs y) / ln 2 <= 0); [|lra].
    assert (0 < / ln 2) by (apply Rinv_0_lt_compat; lra). unfold Rdiv. nra. }
  assert (Hm : powerRZ 2 (- e) = IZR (2 ^ (- e))) by (apply powerRZ_2_nonneg; lia).
  set (M := (2 ^ (- e))%Z) in *.
  assert (HM : (0 < M)%Z) by (apply Z.pow_pos_nonneg; lia).
  assert (Hinv : powerRZ 2 e = / IZR M).
  { rewrite <- Hm. replace e with (- - e)%Z at 1 by lia.
    rewrite (powerRZ_neg' 2 (- e)). reflexivity. }
  rewrite Hm, Hinv.
  assert (0 < IZR M) by (apply IZR_lt; lia).
  apply Rabs_def2 in Hy.
  destruct (nearest_even_bounds (y * IZR M) M) as [L U]; [nra|].
  apply IZR_le in L, U. rewrite opp_IZR in L.
  split.
  - apply Rmult_le_reg_r with (IZR M); [done|].
    rewrite Rmult_assoc, Rinv_l by lra. lra.
  - apply Rmult_le_reg_r with (IZR M); [done|].
    rewrite Rmult_assoc, Rinv_l by lra. lra.
Qed.

Lemma tanh_abs_lt_1 x : Rabs (tanh x) < 1.
Proof. pose proof (tanh_bounds x). apply Rabs_def1; lra. Qed.

(** A float32 [tanh] lies between -1 and 1, the ends included. *)
Lemma tanh32_bounds x : -1 <= tanh32 x <= 1.
Proof. apply round32_unit, tanh_abs_lt_1. Qed.

Lemma exp_INR (n : nat) : exp (INR n) = exp 1 ^ n.
Proof.
  induction n as [|n IH]; [simpl; apply exp_0|].
  rewrite S_INR, exp_plus, IH. simpl. ring.
Qed.

Lemma exp_200_large : 2 ^ 27 <= exp 200.
Proof.
  assert (H1 : 2 ^ 27 <= exp 1 ^ 27).
  { apply pow_incr. pose proof (exp_ineq1 1). lra. }
  rewrite <- exp_INR in H1.
  assert (H2 : exp (INR 27) < exp 200).
  { apply exp_increasing. simpl. lra. }
  lra.
Qed.

Lemma tanh_close (x : R) :
  2 ^ 27 <= exp x * exp x → 1 - / 2 ^ 25 <= tanh x.
Proof.
  intros HL. unfold tanh, sinh, cosh.
  pose proof (exp_pos x) as Hp. pose proof (exp_pos (- x)) as Hn.
  assert (E : exp x * exp (- x) = 1).
  { rewrite <- exp_plus. replace (x + - x) with 0 by lra. apply exp_0. }
  set (a := exp x) in *. set (b := exp (- x)) in *.
  replace ((a - b) / 2 / ((a + b) / 2)) with ((a - b) / (a + b))
    by (field; lra).
  apply Rmult_le_reg_r with (a + b); [lra|].
  replace ((a - b) / (a + b) * (a + b)) with (a - b) by (field; lra).
  assert (P : 0 < / 2 ^ 25) by (apply Rinv_0_lt_compat; lra).
  assert (Q : / 2 ^ 25 * 2 ^ 27 = 4) by (field; lra).
  set (c := / 2 ^ 25) in *.
  assert (K : 2 * b <= c * a).
  { apply Rmult_le_reg_r with a; [lra|].
    replace (2 * b * a) with (2 * (a * b)) by ring. rewrite E.
    rewrite Rmult_assoc.
    assert (c * 2 ^ 27 <= c * (a * a)) by (apply Rmult_le_compat_l; lra).
    lra. }
  assert (0 <= c * b) by (apply Rmult_le_pos; lra).
  replace ((1 - c) * (a + b)) with (a + b - c * a - c * b) by ring. lra.
Qed.

(** [tanh 100] is within half a unit in the last place of 1. *)
Lemma tanh_100_close : 1 - / 2 ^ 25 <= tanh 100 < 1.
Proof.
  pose proof (tanh_abs_lt_1 100) as Ha. apply Rabs_def2 in Ha.
  split; [|lra]. apply tanh_close.
  rewrite <- exp_plus. replace (100 + 100) with 200 by lra.
  apply exp_200_large.
Qed.

Lemma magnitude_half_one (y : R) : / 2 <= y < 1 → magnitude y = 0%Z.
Proof.
  intros [H1 H2]. unfold magnitude. rewrite Rabs_right by lra.
  assert (Int_part (ln y / ln 2) = (-1)%Z) as ->; [|reflexivity].
  pose proof ln_2_pos as L2.
  assert (Hu : ln y < 0).
  { pose proof (ln_increasing y 1 ltac:(lra) H2) as H. by rewrite ln_1 in H. }
  assert (Hl : - ln 2 <= ln y).
  { rewrite <- ln_Rinv by lra.
    destruct H1 as [H1|<-]; [left; apply ln_increasing; lra | lra]. }
  assert (Hi : 0 < / ln 2) by (apply Rinv_0_lt_compat; lra).
  apply Int_part_unique. unfold Rdiv. split.
  - apply Rmult_le_reg_r with (ln 2); [lra|].
    rewrite Rmult_assoc, Rinv_l by lra. lra.
  - apply Rmult_lt_reg_r with (ln 2); [lra|].
    rewrite Rmult_assoc, Rinv_l by lra. lra.
Qed.

Lemma nearest_even_up (x : R) (f : Z) :
  Z.even f = false → IZR f + 1 / 2 <= x < IZR f + 1 →
  nearest_even x = (f + 1)%Z.
Proof.
  intros Hf [H1 H2]. unfold nearest_even.
  rewrite (Int_part_unique x f) by lra.
  destruct (Rlt_dec _ _); [lra|]. destruct (Rlt_dec _ _); [reflexivity|].
  by rewrite Hf.
Qed.

Lemma round32_saturates (y : R) : 1 - / 2 ^ 25 <= y < 1 → round32 y = 1.
Proof.
  intros [H1 H2].
  assert (P : / 2 ^ 25 = / 33554432) by (f_equal; lra).
  rewrite P in H1.
  unfold round32. rewrite magnitude_half_one by lra.
  change (Z.max (0 - 24) (-149)) with (-24)%Z.
  change (- -24)%Z with 24%Z.
  assert (E1 : powerRZ 2 24 = 16777216) by (simpl; lra).
  assert (E2 : powerRZ 2 (-24) = / 16777216) by (simpl; f_equal; lra).
  rewrite E1, E2.
  rewrite (nearest_even_up (y * 16777216) 16777215); [|reflexivity|].
  - change (16777215 + 1)%Z with 16777216%Z. field.
  - split; lra.
Qed.

(** In float32 the [tanh] of 100 is exactly 1. *)
Lemma tanh32_100 : tanh32 100 = 1.
Proof. apply round32_saturates, tanh_100_close. Qed.

(** ** The decoder, continued *)

Lemma apply_final_layer θ p h t t' :
  apply θ p (Sequential [ConvTranspose2d h h 3 2 1 1; BatchNorm2d h;
                         LeakyReLU; Conv2d h 3 3 1 1; Tanh]) t = Ok t' →
  ∃ n a b pre, shape t' = [n; 3%nat; a; b] ∧ data t' = map tanh32 pre.
Proof.
  cbn [apply]. intros H.
  apply bind_ok_inv in H as (t0 & E0 & H).
  apply bind_ok_inv in H as (t1 & E1 & H).
  apply bind_ok_inv in H as (t2 & E2 & H).
  apply bind_ok_inv in H as (t3 & E3 & H).
  apply bind_ok_inv in H as (t4 & E4 & H). injection H as <-.
  apply apply_layer_inv in E1 as [E1 _], E2 as [E2 _], E3 as [E3 _],
                           E4 as [E4 D4].
  apply layer_shape_batch_norm in E1 as (n & a & b & E1 & E1').
  simpl in E2, E4. injection E2 as E2. injection E4 as E4.
  apply layer_shape_conv in E3
    as [(n1 & a1 & b1 & a' & b' & E5 & E6)|(a1 & b1 & a' & b' & E5 & E6)];
    [|congruence].
  exists n1, a', b', (data t3). split; [congruence | exact D4].
Qed.

(** Whatever [decode] returns has three channels, and its entries are
    values of [tanh] in float32. *)
Lemma decode_inv θ σ ic ld hd ns m σ' z t :
  init σ ic ld hd ns = Ok (m, σ') →
  decode θ m z = Ok t →
  ∃ n a b pre, shape t = [n; 3%nat; a; b] ∧ data t = map tanh32 pre.
Proof.
  intros Hi Hd. apply init_inv in Hi as (xs & h0 & h1 & _ & _ & ->).
  unfold decode in Hd. cbn [decoder_input decoder final_layer] in Hd.
  apply bind_ok_inv in Hd as (t0 & _ & Hd).
  apply bind_ok_inv in Hd as (t1 & _ & Hd).
  apply bind_ok_inv in Hd as (t2 & _ & Hd).
  apply bind_ok_inv in Hd as (t3 & E & Hd). injection Hd as <-.
  by apply apply_final_layer in E.
Qed.

(** ** Sampling and the forward pass *)

Lemma binop_same_shape f a b :
  shape a = shape b →
  binop f a b = Ok (Tensor (shape a) (zip_with f (data a) (data b))).
Proof. intros H. unfold binop. by rewrite decide_True. Qed.

Lemma reparameterize_same_shape g mu logvar :
  shape mu = shape logvar →
  reparameterize g mu logvar =
    Ok (Tensor (shape mu)
          (zip_with Rplus
             (zip_with Rmult
                (map (λ i, draws g (position g + i)%nat)
                     (seq 0 (numel (shape mu))))
                (map exp (map (Rmult (1 / 2)) (data logvar))))
             (data mu)),
        advance g (numel (shape mu))).
Proof.
  intros Hs. unfold reparameterize, randn_like, tmul, tadd.
  cbn [texp smul tmap shape data].
  rewrite binop_same_shape by reflexivity. cbn [mbind result_bind shape data].
  rewrite binop_same_shape by (symmetry; exact Hs).
  cbn [mbind result_bind shape data]. rewrite <- Hs. reflexivity.
Qed.

Lemma exp_half_sqr l : exp (1 / 2 * l) * exp (1 / 2 * l) = exp l.
Proof. rewrite <- exp_plus. f_equal. lra. Qed.

Lemma exp_1_gt_2 : 2 < exp 1.
Proof. pose proof (exp_ineq1 1). lra. Qed.

(** The six outputs of [forward] and the calls they come from. *)
Lemma forward_inv θ m g input outs g' :
  forward θ m g input = Ok (outs, g') →
  ∃ recons mu log_var z eps d,
    outs = [recons; input; mu; log_var; z; eps]
    ∧ encode θ m input = Ok [mu; log_var]
    ∧ reparameterize g mu log_var = Ok (z, g')
    ∧ decode θ m z = Ok recons
    ∧ tsub z mu = Ok d ∧ tdiv d log_var = Ok eps.
Proof.
  unfold forward. intros H.
  apply bind_ok_inv in H as (ml & E0 & H).
  apply bind_ok_inv in H as ([mu lv] & E1 & H).
  apply bind_ok_inv in H as ([z g1] & E2 & H).
  apply bind_ok_inv in H as (d & E3 & H).
  apply bind_ok_inv in H as (eps & E4 & H).
  apply bind_ok_inv in H as (recons & E5 & H). injection H as <- <-.
  destruct ml as [|a [|b [|? ?]]]; try discriminate E1. injection E1 as -> ->.
  exists recons, mu, lv, z, eps, d. done.
Qed.

(** [forward] draws one latent per image: the generator moves on by the
    number of entries of the mean. *)
Lemma forward_one_draw θ σ ic ld hd ns m σ' g input outs g' :
  init σ ic ld hd ns = Ok (m, σ') →
  forward θ m g input = Ok (outs, g') →
  ∃ n, head (shape input) = Some n ∧ g' = advance g (n * ld).
Proof.
  intros Hi Hf.
  apply forward_inv in Hf
    as (recons & mu & lv & z & eps & d & -> & He & Hr & _).
  destruct (encode_shapes _ _ _ _ _ _ _ _ _ _ Hi He)
    as (mu' & lv' & n & E & Hn & Hmu & Hlv).
  injection E as <- <-. exists n. split; [exact Hn|].
  rewrite reparameterize_same_shape in Hr by congruence.
  injection Hr as _ <-. rewrite Hmu. cbn [numel foldr].
  by rewrite Nat.mul_1_r.
Qed.


(** ** The weights of the objective *)

Lemma lookup_recons_loss (types_ : list string) (o : pyobj) :
  module_globals types_ !! "recons_loss"%string = Some o →
  ∃ n, o = PyClass n.
Proof.
  intros H. apply elem_of_list_to_map_2 in H.
  repeat (apply elem_of_cons in H as [H|H]; [discriminate H|]).
  apply elem_of_app in H as [H|H].
  - apply list_elem_of_fmap in H as (n & H & _). injection H as _ ->. eauto.
  - repeat (apply elem_of_cons in H as [H|H]; [discriminate H|]).
    by apply elem_of_nil in H.
Qed.

Lemma lookup_recons_loss_unbound (types_ : list string) :
  "recons_loss"%string ∉ types_ →
  module_globals types_ !! "recons_loss"%string = None.
Proof.
  intros Hn. apply not_elem_of_list_to_map_1. intros H.
  apply list_elem_of_fmap in H as ([k o] & Hk & H). simpl in Hk. subst k.
  repeat (apply elem_of_cons in H as [H|H]; [discriminate H|]).
  apply elem_of_app in H as [H|H].
  - apply list_elem_of_fmap in H as (n & H & Hin). injection H as <- _.
    apply Hn. by apply elem_of_reverse.
  - repeat (apply elem_of_cons in H as [H|H]; [discriminate H|]).
    by apply elem_of_nil in H.
Qed.

(** Reading [recons_loss] raises: the name is unbound, or bound to a type
    alias, which no tensor can be added to. *)
Lemma load_recons_loss (types_ : list string) :
  load_global types_ "recons_loss" ≫= as_tensor
    = Raise (NameError "recons_loss")
  ∨ load_global types_ "recons_loss" ≫= as_tensor = Raise TypeError.
Proof.
  unfold load_global.
  destruct (module_globals types_ !! "recons_loss"%string) as [o|] eqn:E.
  - right. apply lookup_recons_loss in E as [n ->]. reflexivity.
  - left. reflexivity.
Qed.

Lemma load_recons_loss_unbound (types_ : list string) :
  "recons_loss"%string ∉ types_ →
  load_global types_ "recons_loss" = Raise (NameError "recons_loss").
Proof.
  intros H. unfold load_global. by rewrite lookup_recons_loss_unbound.
Qed.

Lemma importance_weights_cases (types_ : list string) (p q : tensor) :
  importance_weights types_ p q = Raise (NameError "recons_loss")
  ∨ importance_weights types_ p q = Raise TypeError.
Proof.
  unfold importance_weights.
  destruct (load_recons_loss types_) as [-> | ->]; [left | right]; reflexivity.
Qed.

Lemma importance_weights_unbound (types_ : list string) (p q : tensor) :
  "recons_loss"%string ∉ types_ →
  importance_weights types_ p q = Raise (NameError "recons_loss").
Proof.
  intros H. unfold importance_weights.
  by rewrite load_recons_loss_unbound.
Qed.

(** * The claims *)

(** C1: [loss_function] does not return normally.  On the six outputs of a
    forward pass and [M_N = 1] it stops with [NameError]: line 146 reads
    [recons_loss], a name that no statement binds (line 139 binds the
    reconstruction error to [log_p_x_z]) and that, unless [types_] happens
    to export it, is not a name of the file either. *)
Theorem loss_function_raises_on_forward_outputs (types_ : list string) :
  "recons_loss"%string ∉ types_ →
  ∃ outs g,
    forward bias_only tiny ones (zeros [1; 3; 4; 4]%nat) = Ok (outs, g)
    ∧ loss_function types_ tiny outs {[ "M_N"%string := 1 ]}
      = Raise (NameError "recons_loss").
Proof.
  intros H. eexists _, _. split; [run; reflexivity|].
  unfold loss_function. run_prefix.
  rewrite (importance_weights_unbound types_) by exact H. reflexivity.
Qed.

Lemma loss_function_raises_on_forward_outputs_witness :
  ∃ outs g,
    forward bias_only tiny ones (zeros [1; 3; 4; 4]%nat) = Ok (outs, g)
    ∧ loss_function ["List"; "Tensor"]%string tiny outs {[ "M_N"%string := 1 ]}
      = Raise (NameError "recons_loss").
Proof.
  apply (loss_function_raises_on_forward_outputs ["List"; "Tensor"]%string).
  intros H. repeat (apply elem_of_cons in H as [H|H]; [discriminate H|]).
  by apply elem_of_nil in H.
Defined.

(** C2: no call of [loss_function] returns a loss.  Whatever the arguments,
    the run ends in an exception: in one of the statements before line
    146, or at line 146 itself, before the weights and the weighted sum
    are formed. *)
Theorem loss_function_never_returns (types_ : list string) (self : IWAE)
    (args : list tensor) (kwargs : gmap string R) :
  raises (loss_function types_ self args kwargs).
Proof.
  unfold loss_function.
  repeat first
    [ match goal with
      | |- raises (importance_weights ?t ?p ?q ≫= _) =>
          destruct (importance_weights_cases t p q) as [-> | ->];
          eexists; reflexivity
      end
    | step_raise ].
Qed.

(** C3: the sixth output of [forward] is [(z - mu) / log_var], not the
    noise [(z - mu) / exp(0.5 * log_var)].  For a network whose [fc_mu]
    returns 0 and whose [fc_var] returns 2, and a draw equal to 1, the
    recovered noise is 1 and the sixth output is [exp 1 / 2]. *)
Theorem forward_noise_divides_by_log_var :
  ∃ recons mu log_var z eps g noise,
    forward bias_only tiny ones (zeros [1; 3; 4; 4]%nat)
      = Ok ([recons; zeros [1; 3; 4; 4]%nat; mu; log_var; z; eps], g)
    ∧ decode bias_only tiny z = Ok recons
    ∧ data log_var = [2]
    ∧ recovered_noise mu log_var z = Ok noise
    ∧ data noise = [1]
    ∧ data eps = [exp 1 / 2]
    ∧ data eps ≠ data noise.
Proof.
  eexists _, _, _, _, _, _, _.
  split; [run; reflexivity|].
  split; [run; reflexivity|].
  split; [reflexivity|].
  split; [run; reflexivity|].
  assert (E : 1 / 2 * 2 = 1) by lra.
  cbn [data]. rewrite E.
  assert (Hp := exp_pos 1).
  assert (N : (1 * exp 1 + 0 - 0) / exp 1 = 1) by (field; lra).
  assert (D : (1 * exp 1 + 0 - 0) / 2 = exp 1 / 2) by field.
  rewrite N, D. repeat split.
  intros H. injection H as H. pose proof exp_1_gt_2. lra.
Qed.

(** C4: on every batch of images of an accepted shape, that is with the
    configured number of channels and a height and width that the blocks
    of the encoder bring down to four positions, [encode] returns exactly
    two tensors, the mean and the log-variance, each with [latent_dim]
    entries for every image of the batch.  The sizes the model is built
    with are positive. *)
Theorem encode_returns_latent_vectors θ (σ : gmap positive (list nat))
    ic ld hd ns m σ' xs x n h w :
  hidden_dims_of σ hd = Some xs → Forall (λ c, 0 < c)%nat xs →
  (0 < ic)%nat → (0 < ld)%nat →
  init σ ic ld hd ns = Ok (m, σ') →
  shape x = [n; ic; h; w] → (1 ≤ h)%nat → (1 ≤ w)%nat →
  (halvings (depth m) h * halvings (depth m) w = 4)%nat →
  ∃ mu log_var, encode θ m x = Ok [mu; log_var]
    ∧ shape mu = [n; ld] ∧ shape log_var = [n; ld].
Proof.
  intros Hx Hp _ _.
  apply (encode_total θ σ ic ld hd ns m σ' xs x n h w Hx Hp).
Qed.

Lemma encode_returns_latent_vectors_witness :
  ∃ mu log_var,
    encode bias_only tiny (zeros [1; 3; 4; 4]%nat) = Ok [mu; log_var]
    ∧ shape mu = [1; 1]%nat ∧ shape log_var = [1; 1]%nat.
Proof.
  apply (encode_returns_latent_vectors bias_only tiny_store 3 1
           (Some 1%positive) 5 tiny tiny_store [512%nat]
           (zeros [1; 3; 4; 4]%nat) 1 4 4).
  - reflexivity.
  - repeat constructor; lia.
  - lia.
  - lia.
  - vm_compute. reflexivity.
  - reflexivity.
  - lia.
  - lia.
  - reflexivity.
Defined.

(** C5: the image that [decode] returns has three channels whatever
    [in_channels] is.  A model built with [in_channels = 1] (and
    [hidden_dims = [512]]) decodes a latent of shape [1; 1] into an image
    of shape [1; 3; 4; 4]. *)
Theorem decode_returns_three_channels :
  ∃ m t,
    init tiny_store 1 1 (Some 1%positive) 5 = Ok (m, tiny_store)
    ∧ decode bias_only m (zeros [1; 1]%nat) = Ok t
    ∧ shape t = [1; 3; 4; 4]%nat.
Proof.
  eexists _, _. split; [vm_compute; reflexivity|].
  split; [run_shapes; reflexivity | reflexivity].
Qed.

(** C6, as amended: every entry of an image that [decode] returns lies
    between -1 and 1, the ends included: the final [Tanh] is computed in
    float32, where it reaches 1 and -1. *)
Theorem decode_within_closed_range θ σ ic ld hd ns m σ' z t :
  init σ ic ld hd ns = Ok (m, σ') →
  decode θ m z = Ok t →
  Forall (λ v, -1 <= v <= 1) (data t).
Proof.
  intros Hi Hd.
  destruct (decode_inv _ _ _ _ _ _ _ _ _ _ Hi Hd) as (n & a & b & pre & _ & ->).
  apply Forall_map, Forall_forall. intros x _. apply tanh32_bounds.
Qed.

Lemma decode_within_closed_range_witness :
  ∃ t, decode bias_only tiny (zeros [1; 1]%nat) = Ok t
       ∧ shape t = [1; 3; 4; 4]%nat
       ∧ Forall (λ v, -1 <= v <= 1) (data t).
Proof.
  eexists. split; [run_shapes; reflexivity|]. split; [reflexivity|].
  apply (decode_within_closed_range bias_only tiny_store 3 1
           (Some 1%positive) 5 tiny tiny_store (zeros [1; 1]%nat)).
  - vm_compute. reflexivity.
  - run_shapes. reflexivity.
Defined.

(** C6, as stated, fails: the image that a model whose last convolution
    returns 100 decodes has entries equal to 1, so they are not strictly
    inside the range. *)
Lemma decode_reaches_one :
  ∃ t, init tiny_store 3 1 (Some 1%positive) 5 = Ok (tiny, tiny_store)
       ∧ decode saturated tiny (zeros [1; 1]%nat) = Ok t
       ∧ ¬ Forall (λ v, -1 < v < 1) (data t).
Proof.
  eexists. split; [vm_compute; reflexivity|].
  split; [run; reflexivity|].
  cbn [data]. intros H. apply Forall_cons in H as [[_ H] _].
  rewrite tanh32_100 in H. lra.
Qed.

(** C7: for a mean and a log-variance of one shape, [reparameterize]
    returns, entry by entry, [eps * exp(0.5 * logvar) + mu] for the noise
    [eps] it draws from the generator, one draw per entry.  The latent is
    thus the mean plus the noise scaled by a factor whose square is
    [exp(logvar)], the variance. *)
Theorem reparameterize_formula g mu logvar :
  shape mu = shape logvar → well_formed mu → well_formed logvar →
  ∃ z, reparameterize g mu logvar = Ok (z, advance g (numel (shape mu)))
     ∧ shape z = shape mu
     ∧ well_formed z
     ∧ ∀ i m l, data mu !! i = Some m → data logvar !! i = Some l →
         data z !! i
           = Some (draws g (position g + i)%nat * exp (1 / 2 * l) + m)
         ∧ exp (1 / 2 * l) * exp (1 / 2 * l) = exp l.
Proof.
  intros Hs Wm Wl. eexists. split; [by apply reparameterize_same_shape|].
  unfold well_formed in *. cbn [shape data]. split; [done|]. split.
  - rewrite !length_zip_with, !length_map, length_seq.
    rewrite <- Hs in Wl. lia.
  - intros i m l Hm Hl. split; [|apply exp_half_sqr].
    rewrite lookup_zip_with, lookup_zip_with, Hm, !list_lookup_fmap, Hl.
    assert (Hi : (i < numel (shape mu))%nat).
    { rewrite <- Wm. by eapply lookup_lt_Some. }
    rewrite lookup_seq_lt by done. reflexivity.
Qed.

Lemma reparameterize_formula_witness :
  ∃ z, reparameterize ones (Tensor [1; 2]%nat [3; 4]) (Tensor [1; 2]%nat [0; 2])
       = Ok (z, advance ones 2)
     ∧ shape z = [1; 2]%nat
     ∧ well_formed z
     ∧ ∀ i m l, [3; 4] !! i = Some m → [0; 2] !! i = Some l →
         data z !! i = Some (1 * exp (1 / 2 * l) + m)
         ∧ exp (1 / 2 * l) * exp (1 / 2 * l) = exp l.
Proof.
  apply (reparameterize_formula ones (Tensor [1; 2]%nat [3; 4])
           (Tensor [1; 2]%nat [0; 2])); reflexivity.
Defined.

(** C8: [loss_function] computes no importance weights.  Lines 146-147
    stop at the name [recons_loss] whatever the two log-densities are,
    before [F.softmax] is called: with [NameError], the name being unbound,
    or with [TypeError] should [types_] export a type alias of that
    name. *)
Theorem importance_weights_not_computed (types_ : list string)
    (E_log_p_z E_log_q_z : tensor) :
  importance_weights types_ E_log_p_z E_log_q_z
    = Raise (NameError "recons_loss")
  ∨ importance_weights types_ E_log_p_z E_log_q_z = Raise TypeError.
Proof.
  unfold importance_weights.
  destruct (load_recons_loss types_) as [-> | ->]; [left | right]; reflexivity.
Qed.

(** C9: [num_samples] is stored and never read, and one latent is drawn
    for each input.  Two models built from the same arguments but for
    [num_samples] compute the same forward pass, with the same draws from
    the generator, and the same [loss_function]; and a forward pass on a
    batch of [n] images returns one latent of [latent_dim] entries for
    each image and takes the [n * latent_dim] numbers they are made of
    from the generator, no more. *)
Theorem num_samples_unused θ types_ (σ : gmap positive (list nat)) ic ld hd
    n1 n2 g x args kwargs :
  ((init σ ic ld hd n1 ≫= λ r, forward θ r.1 g x)
   = (init σ ic ld hd n2 ≫= λ r, forward θ r.1 g x)
   ∧ (init σ ic ld hd n1 ≫= λ r, loss_function types_ r.1 args kwargs)
   = (init σ ic ld hd n2 ≫= λ r, loss_function types_ r.1 args kwargs))
  ∧ ∀ m σ' outs g',
      init σ ic ld hd n1 = Ok (m, σ') →
      forward θ m g x = Ok (outs, g') →
      ∃ n recons mu log_var z eps,
        outs = [recons; x; mu; log_var; z; eps]
        ∧ head (shape x) = Some n
        ∧ shape z = [n; ld]
        ∧ g' = advance g (n * ld).
Proof.
  split.
  - unfold init.
    destruct (match hd with
              | Some l => Ok (l, σ)
              | None => Ok (fresh (dom σ),
                            <[fresh (dom σ):=[32; 64; 128; 256; 512]%nat]> σ)
              end) as [[l σ1]|e]; cbn [mbind result_bind]; [|done].
    destruct (deref σ1 l) as [xs|e]; cbn [mbind result_bind]; [|done].
    destruct (last_item xs) as [h0|e]; cbn [mbind result_bind]; [|done].
    destruct (deref (<[l:=reverse xs]> σ1) l) as [xs'|e];
      cbn [mbind result_bind]; [|done].
    destruct (last_item xs') as [h1|e]; cbn [mbind result_bind]; [|done].
    split; reflexivity.
  - intros m σ' outs g' Hi Hf.
    apply forward_inv in Hf
      as (recons & mu & lv & z & eps & d & -> & He & Hr & _).
    destruct (encode_shapes _ _ _ _ _ _ _ _ _ _ Hi He)
      as (mu' & lv' & n & E & Hn & Hmu & Hlv).
    injection E as <- <-.
    rewrite reparameterize_same_shape in Hr by congruence.
    injection Hr as <- <-.
    exists n, recons, mu, lv. eexists _, eps.
    split; [reflexivity|]. split; [exact Hn|]. split; [exact Hmu|].
    rewrite Hmu. cbn [numel foldr]. by rewrite Nat.mul_1_r.
Qed.

Lemma num_samples_unused_witness :
  ∃ outs g',
    forward bias_only tiny ones (zeros [1; 3; 4; 4]%nat) = Ok (outs, g')
    ∧ ∃ n recons mu log_var z eps,
        outs = [recons; zeros [1; 3; 4; 4]%nat; mu; log_var; z; eps]
        ∧ head (shape (zeros [1; 3; 4; 4]%nat)) = Some n
        ∧ shape z = [n; 1%nat]
        ∧ g' = advance ones (n * 1).
Proof.
  eexists _, _. split; [run; reflexivity|].
  eapply (proj2 (num_samples_unused bias_only ["List"; "Tensor"]%string
                   tiny_store 3 1 (Some 1%positive) 5 7 ones
                   (zeros [1; 3; 4; 4]%nat) [] ∅)).
  - vm_compute. reflexivity.
  - run. reflexivity.
Defined.

(** What the constructor does to the lists: when [hidden_dims] is a list of
    the caller's that is not empty, the constructor returns, and
    afterwards the store holds the reversed list at that location and is
    otherwise as it was. *)
Lemma init_reverses_hidden_dims (σ : gmap positive (list nat)) ic ld l xs ns :
  σ !! l = Some xs → xs ≠ [] →
  ∃ m, init σ ic ld (Some l) ns = Ok (m, <[l := reverse xs]> σ).
Proof.
  intros Hl Hne. unfold init, deref. cbn [mbind result_bind].
  rewrite Hl. cbn [mbind result_bind].
  assert (∃ h0, last_item xs = Ok h0) as [h0 E0].
  { unfold last_item. destruct (last xs) eqn:E; [eauto|].
    by apply last_None in E. }
  rewrite E0. cbn [mbind result_bind].
  rewrite lookup_insert_eq. cbn [mbind result_bind].
  assert (∃ h1, last_item (reverse xs) = Ok h1) as [h1 E1].
  { unfold last_item. rewrite last_reverse. destruct xs; [done|].
    simpl. eauto. }
  rewrite E1. cbn [mbind result_bind]. eauto.
Qed.

(** C10, as amended: the constructor reverses the caller's list in place
    and advances torch's default generator.  When [hidden_dims] is a list
    of the caller's that is not empty, the constructor returns; afterwards
    the store holds the reversed list at that location and every other
    list as it was, and the generator has given one number for each
    weight and bias of the convolutions and linear layers of the model:
    with a positive [latent_dim] it is not where it was. *)
Theorem construct_reverses_hidden_dims (g : generator)
    (σ : gmap positive (list nat)) ic ld l xs ns :
  σ !! l = Some xs → xs ≠ [] →
  ∃ m, construct g σ ic ld (Some l) ns
       = Ok (m, <[l := reverse xs]> σ, advance g (initial_draws m))
     ∧ ((0 < ld)%nat → (0 < initial_draws m)%nat).
Proof.
  intros Hl Hne.
  destruct (init_reverses_hidden_dims σ ic ld l xs ns Hl Hne) as [m E].
  exists m. split.
  - unfold construct. rewrite E. reflexivity.
  - intros Hld.
    destruct (init_spec σ ic ld (Some l) ns m _ xs Hl E)
      as (h0 & h1 & _ & _ & ->).
    unfold initial_draws. cbn [fc_mu drawn]. lia.
Qed.

Lemma construct_reverses_hidden_dims_witness :
  ∃ m, construct ones {[ 7%positive := [1; 2]%nat ]} 1 1 (Some 7%positive) 5
       = Ok (m, <[7%positive := reverse [1; 2]%nat]>
                  {[ 7%positive := [1; 2]%nat ]},
             advance ones (initial_draws m))
     ∧ ((0 < 1)%nat → (0 < initial_draws m)%nat).
Proof.
  apply (construct_reverses_hidden_dims ones {[ 7%positive := [1; 2]%nat ]}
           1 1 7%positive [1; 2]%nat 5).
  - reflexivity.
  - discriminate.
Defined.

(** C10, as stated, fails: the generator is part of what the caller sees,
    and after the construction it is no longer the one it was. *)
Lemma construct_advances_generator :
  ∃ m σ' g',
    construct ones {[ 7%positive := [1; 2]%nat ]} 1 1 (Some 7%positive) 5
      = Ok (m, σ', g')
    ∧ g' ≠ ones.
Proof.
  eexists _, _, _. split; [vm_compute; reflexivity|].
  intros H. apply (f_equal position) in H. vm_compute in H. discriminate H.
Qed.

(** ** Further facts about the constructor *)

(** Without a [hidden_dims] argument the constructor reverses a list of its
    own, and the lists of the caller are as they were. *)
Lemma init_default_frame (σ : gmap positive (list nat)) ic ld ns :
  ∃ m σ', init σ ic ld None ns = Ok (m, σ')
          ∧ ∀ l, is_Some (σ !! l) → σ' !! l = σ !! l.
Proof.
  unfold init. cbn [mbind result_bind].
  set (l := fresh (dom σ)).
  unfold deref. rewrite !lookup_insert_eq. cbn [mbind result_bind].
  rewrite lookup_insert_eq. cbn [mbind result_bind].
  eexists _, _. split; [reflexivity|].
  intros l' Hl'.
  assert (l ≠ l').
  { intros <-. apply (is_fresh (dom σ)). by apply elem_of_dom. }
  by rewrite !lookup_insert_ne.
Qed.

(** An empty [hidden_dims] makes line 38 fail. *)
Lemma init_empty_list (σ : gmap positive (list nat)) ic ld l ns :
  σ !! l = Some [] → init σ ic ld (Some l) ns = Raise IndexError.
Proof.
  intros Hl. unfold init, deref. cbn [mbind result_bind].
  rewrite Hl. reflexivity.
Qed.

(** * Further properties *)

(** ** The model the constructor builds *)


Lemma init_Some_ok (σ : gmap positive (list nat)) ic ld l xs ns :
  σ !! l = Some xs → xs ≠ [] →
  ∃ h0 h1, last xs = Some h0 ∧ head xs = Some h1
    ∧ init σ ic ld (Some l) ns
      = Ok ({| latent_dim := ld;
               num_samples := ns;
               encoder := Sequential (encoder_blocks ic xs);
               fc_mu := Linear (h0 * 4) ld;
               fc_var := Linear (h0 * 4) ld;
               decoder_input := Linear ld (h0 * 4);
               decoder := Sequential (decoder_blocks (reverse xs));
               final_layer := Sequential [ConvTranspose2d h1 h1 3 2 1 1;
                                          BatchNorm2d h1;
                                          LeakyReLU;
                                          Conv2d h1 3 3 1 1;
                                          Tanh] |},
            <[l := reverse xs]> σ).
Proof.
  intros Hl Hne.
  destruct (last xs) as [h0|] eqn:L; [|by apply last_None in L].
  destruct (head xs) as [h1|] eqn:H; [|by destruct xs].
  exists h0, h1. split; [done|]. split; [done|].
  unfold init, deref. cbn [mbind result_bind]. rewrite Hl.
  cbn [mbind result_bind]. unfold last_item. rewrite L.
  cbn [mbind result_bind]. rewrite lookup_insert_eq.
  cbn [mbind result_bind]. rewrite last_reverse, H. reflexivity.
Qed.

(** ** More on the layers *)


Lemma decoder_blocks_cons a b rest :
  decoder_blocks (a :: b :: rest)
  = Sequential [ConvTranspose2d a b 3 2 1 1; BatchNorm2d b; LeakyReLU]
    :: decoder_blocks (b :: rest).
Proof.
  unfold decoder_blocks. cbn [length Nat.sub].
  rewrite Nat.sub_0_r. cbn [seq map]. f_equal.
  rewrite <- seq_shift, map_map. apply map_ext. intros i. reflexivity.
Qed.

Lemma decoder_blocks_single a : decoder_blocks [a] = [].
Proof. reflexivity. Qed.

Lemma conv_transpose_out_double h :
  (1 ≤ h)%nat → conv_transpose_out 3 2 1 1 h = Ok (2 * h)%nat.
Proof.
  intros H. unfold conv_transpose_out. rewrite decide_False by lia.
  f_equal. lia.
Qed.

Lemma conv_out_same h : (1 ≤ h)%nat → conv_out 3 1 1 h = Ok h.
Proof.
  intros H. unfold conv_out. rewrite decide_False by lia.
  f_equal. rewrite Nat.div_1_r. lia.
Qed.

Lemma conv_out_inv h h' : conv_out 3 2 1 h = Ok h' → (1 ≤ h)%nat.
Proof.
  unfold conv_out. destruct (decide (h + 2 * 1 < 3)%nat); [discriminate|lia].
Qed.

Lemma layer_shape_conv_sizes cin cout n c h w s' :
  layer_shape (Conv2d cin cout 3 2 1) [n; c; h; w] = Ok s' →
  c = cin ∧ (1 ≤ h)%nat ∧ (1 ≤ w)%nat.
Proof.
  cbn [layer_shape]. intros H.
  destruct (decide (cout = 0%nat)); [discriminate|].
  destruct (decide (c = cin)); [|discriminate].
  apply bind_ok_inv in H as (h' & Eh & H).
  apply bind_ok_inv in H as (w' & Ew & H).
  apply conv_out_inv in Eh, Ew. done.
Qed.

Lemma layer_shape_conv_transpose_channel a b k st p op s s' :
  layer_shape (ConvTranspose2d a b k st p op) s = Ok s' →
  (∃ n h w, s = [n; a; h; w]) ∨ (∃ h w, s = [a; h; w]).
Proof.
  simpl. intros H. destruct (decide (b = 0%nat)); [discriminate|].
  destruct s as [|x [|y [|z [|u [|? ?]]]]]; try discriminate H.
  - right. destruct (decide (x = a)); [subst; eauto | discriminate].
  - left. destruct (decide (y = a)); [subst; eauto | discriminate].
Qed.

Lemma apply_Linear θ p a b t :
  apply θ p (Linear a b) t = apply_layer θ p (Linear a b) t.
Proof. reflexivity. Qed.

Lemma apply_block_deconv_ok θ p a b t n h w :
  (0 < b)%nat →
  shape t = [n; a; h; w] → (1 ≤ h)%nat → (1 ≤ w)%nat →
  ∃ t', apply θ p (Sequential [ConvTranspose2d a b 3 2 1 1; BatchNorm2d b;
                               LeakyReLU]) t = Ok t'
        ∧ shape t' = [n; b; (2 * h)%nat; (2 * w)%nat].
Proof.
  intros Hb Hs Hh Hw. cbn [apply].
  rewrite (apply_layer_ok θ _ (ConvTranspose2d a b 3 2 1 1) t
             [n; b; (2 * h)%nat; (2 * w)%nat]).
  2: { rewrite Hs. cbn [layer_shape]. rewrite decide_False by lia.
       rewrite decide_True by done. by rewrite !conv_transpose_out_double. }
  cbn [mbind result_bind].
  rewrite (apply_layer_ok θ _ (BatchNorm2d b) _ [n; b; (2 * h)%nat; (2 * w)%nat])
    by (cbn [layer_shape shape]; by rewrite decide_True).
  cbn [mbind result_bind].
  rewrite (apply_layer_ok θ _ LeakyReLU _ [n; b; (2 * h)%nat; (2 * w)%nat])
    by reflexivity.
  cbn [mbind result_bind]. eexists. split; reflexivity.
Qed.

Lemma apply_decoder_blocks_ok θ p ys : ∀ i a t n h w,
  Forall (λ c, 0 < c)%nat ys →
  head ys = Some a →
  shape t = [n; a; h; w] → (1 ≤ h)%nat → (1 ≤ w)%nat →
  ∃ t' c, apply_seq θ p i (decoder_blocks ys) t = Ok t'
        ∧ last ys = Some c
        ∧ shape t' = [n; c; (h * 2 ^ (length ys - 1))%nat;
                      (w * 2 ^ (length ys - 1))%nat].
Proof.
  induction ys as [|a0 ys IH]; intros i a t n h w Hp Ha Hs Hh Hw;
    [discriminate|].
  injection Ha as ->. destruct ys as [|b rest].
  - exists t, a. cbn. rewrite Hs, !Nat.mul_1_r. done.
  - rewrite decoder_blocks_cons. cbn [apply_seq].
    apply Forall_cons in Hp as [_ Hp].
    pose proof Hp as Hp'. apply Forall_cons in Hp' as [Hb _].
    destruct (apply_block_deconv_ok θ (child p i) a b t n h w Hb Hs Hh Hw)
      as (t0 & E & Hs0).
    rewrite E. cbn [mbind result_bind].
    destruct (IH (S i) b t0 n (2 * h)%nat (2 * w)%nat Hp eq_refl Hs0
                 ltac:(lia) ltac:(lia)) as (t' & c & E' & Hc & Hs').
    exists t', c. split; [exact E'|]. split; [by rewrite last_cons_cons|].
    rewrite Hs'. cbn [length].
    replace (S (S (length rest)) - 1)%nat with (S (S (length rest) - 1)) by lia.
    rewrite Nat.pow_succ_r'.
    assert (∀ x k, (2 * x * 2 ^ k = x * (2 * 2 ^ k))%nat) as Hr
      by (intros; ring).
    by rewrite !Hr.
Qed.

Lemma apply_final_layer_ok θ p c t n h w :
  (0 < c)%nat →
  shape t = [n; c; h; w] → (1 ≤ h)%nat → (1 ≤ w)%nat →
  ∃ t' pre, apply θ p (Sequential [ConvTranspose2d c c 3 2 1 1; BatchNorm2d c;
                         LeakyReLU; Conv2d c 3 3 1 1; Tanh]) t = Ok t'
        ∧ shape t' = [n; 3%nat; (2 * h)%nat; (2 * w)%nat]
        ∧ data t' = map tanh32 pre.
Proof.
  intros Hc Hs Hh Hw. cbn [apply].
  rewrite (apply_layer_ok θ _ (ConvTranspose2d c c 3 2 1 1) t
             [n; c; (2 * h)%nat; (2 * w)%nat]).
  2: { rewrite Hs. cbn [layer_shape]. rewrite decide_False by lia.
       rewrite decide_True by done. by rewrite !conv_transpose_out_double. }
  cbn [mbind result_bind].
  rewrite (apply_layer_ok θ _ (BatchNorm2d c) _ [n; c; (2 * h)%nat; (2 * w)%nat])
    by (cbn [layer_shape shape]; by rewrite decide_True).
  cbn [mbind result_bind].
  rewrite (apply_layer_ok θ _ LeakyReLU _ [n; c; (2 * h)%nat; (2 * w)%nat])
    by reflexivity.
  cbn [mbind result_bind].
  rewrite (apply_layer_ok θ _ (Conv2d c 3 3 1 1) _
             [n; 3%nat; (2 * h)%nat; (2 * w)%nat]).
  2: { cbn [layer_shape shape]. rewrite decide_False by lia.
       rewrite decide_True by done.
       rewrite !conv_out_same by lia. reflexivity. }
  cbn [mbind result_bind].
  rewrite (apply_layer_ok θ _ Tanh _ [n; 3%nat; (2 * h)%nat; (2 * w)%nat])
    by reflexivity.
  cbn [mbind result_bind]. eexists _, _. repeat split; reflexivity.
Qed.

Lemma apply_deconv_first θ p a b (k : nat) rest t :
  shape t = [k; 512; 2; 2]%nat → a ≠ 512%nat →
  raises (apply θ p (Sequential (ConvTranspose2d a b 3 2 1 1 :: rest)) t).
Proof.
  intros Hs Ha. rewrite apply_Sequential. cbn [apply_seq apply].
  destruct (apply_layer θ (child p 0) (ConvTranspose2d a b 3 2 1 1) t)
    as [t'|e] eqn:E; [|eexists; reflexivity].
  apply apply_layer_inv in E as [E _]. rewrite Hs in E.
  apply layer_shape_conv_transpose_channel in E
    as [(n & h & w & E)|(h & w & E)]; congruence.
Qed.

Lemma view_ok t n :
  shape t = [n; 2048%nat] →
  view_512_2_2 t = Ok (Tensor [n; 512; 2; 2]%nat (data t)).
Proof.
  intros Hs. unfold view_512_2_2. rewrite Hs.
  assert (E : numel [n; 2048%nat] = (n * 2048)%nat).
  { cbn [numel foldr]. by rewrite Nat.mul_1_r. }
  rewrite E.
  rewrite decide_True by (by apply Nat.Div0.mod_mul).
  rewrite Nat.div_mul by done. reflexivity.
Qed.

Lemma view_inv t t' :
  view_512_2_2 t = Ok t' → ∃ k, shape t' = [k; 512; 2; 2]%nat.
Proof.
  unfold view_512_2_2. intros H.
  destruct (decide (numel (shape t) mod 2048 = 0)%nat); [|discriminate].
  injection H as <-. eauto.
Qed.

Lemma encoder_input_shape θ p cin a rest i t t' :
  apply_seq θ p i (encoder_blocks cin (a :: rest)) t = Ok t' →
  ∃ n h w, shape t = [n; cin; h; w] ∧ (1 ≤ h)%nat ∧ (1 ≤ w)%nat.
Proof.
  cbn [encoder_blocks apply_seq]. intros H.
  apply bind_ok_inv in H as (t0 & E & _).
  pose proof E as E'.
  apply apply_block_conv in E' as (n & h & w & h' & w' & Hs & _).
  cbn [apply] in E. apply bind_ok_inv in E as (t1 & E1 & _).
  apply apply_layer_inv in E1 as [E1 _]. rewrite Hs in E1.
  apply layer_shape_conv_sizes in E1 as (_ & Hh & Hw). eauto 10.
Qed.

(** With a list of positive hidden sizes that ends in 512, [decode] returns
    on every batch of latents. *)
Lemma decode_total θ (σ : gmap positive (list nat)) ic ld hd ns m σ' xs z n :
  hidden_dims_of σ hd = Some xs → Forall (λ c, 0 < c)%nat xs →
  init σ ic ld hd ns = Ok (m, σ') →
  last xs = Some 512%nat →
  shape z = [n; ld] →
  ∃ t pre, decode θ m z = Ok t
    ∧ shape t = [n; 3%nat; (2 ^ (length xs + 1))%nat; (2 ^ (length xs + 1))%nat]
    ∧ data t = map tanh32 pre.
Proof.
  intros Hx Hp Hi L Hs.
  destruct (init_spec _ _ _ _ _ _ _ _ Hx Hi) as (h0 & h1 & L0 & H1 & ->).
  rewrite L in L0. injection L0 as <-.
  unfold decode. cbn [decoder_input decoder final_layer].
  rewrite apply_Linear.
  rewrite (apply_layer_ok θ _ (Linear ld (512 * 4)) z [n; 2048%nat]).
  2: { rewrite Hs. apply (layer_shape_linear_ok ld (512 * 4) n). }
  cbn [mbind result_bind].
  rewrite (view_ok _ n) by done. cbn [mbind result_bind].
  rewrite apply_Sequential.
  assert (Hr : Forall (λ c, 0 < c)%nat (reverse xs)).
  { by apply Forall_reverse. }
  match goal with
  | |- context [apply_seq θ ?p 0 _ ?t] =>
      destruct (apply_decoder_blocks_ok θ p (reverse xs) 0 512%nat t n 2 2)
        as (t1 & c & E1 & Lc & Hs1);
        [exact Hr | by rewrite head_reverse | reflexivity | lia | lia |]
  end.
  rewrite E1. cbn [mbind result_bind].
  rewrite last_reverse, H1 in Lc. injection Lc as <-.
  assert (Hh1 : (0 < h1)%nat).
  { destruct xs; [discriminate|]. injection H1 as ->.
    by apply Forall_cons in Hp as [? _]. }
  edestruct (apply_final_layer_ok θ ("final_layer"%string, []) h1 t1)
    as (t2 & pre & E2 & Hs2 & D2); [exact Hh1 | exact Hs1 | | | ].
  { pose proof (Nat.pow_nonzero 2 (length (reverse xs) - 1)). lia. }
  { pose proof (Nat.pow_nonzero 2 (length (reverse xs) - 1)). lia. }
  rewrite E2. cbn [mbind result_bind].
  exists t2, pre. split; [reflexivity|]. split; [|exact D2].
  rewrite Hs2. rewrite length_reverse.
  assert (length xs ≠ 0%nat) by (destruct xs; [discriminate|simpl; lia]).
  replace (length xs + 1)%nat with (S (S (length xs - 1))) by lia.
  rewrite !Nat.pow_succ_r'. repeat f_equal; lia.
Qed.

(** ** More on the tensor operations *)


Lemma broadcast_dims_ones s :
  broadcast_dims s (repeat 1%nat (length s)) = Some s.
Proof.
  induction s as [|d s IH]; [reflexivity|].
  cbn [length repeat broadcast_dims]. rewrite IH. cbn [mbind option_bind].
  destruct (decide (d = 1%nat)) as [->|]; [reflexivity|].
  by rewrite decide_True.
Qed.

Lemma broadcast_dims_refl s : broadcast_dims s s = Some s.
Proof.
  induction s as [|d s IH]; [reflexivity|].
  cbn [broadcast_dims]. rewrite IH. cbn [mbind option_bind].
  by rewrite decide_True.
Qed.

Lemma broadcast_shapes_scalar s : broadcast_shapes s [] = Some s.
Proof.
  unfold broadcast_shapes, pad_shape. cbn [length].
  rewrite Nat.max_0_r, Nat.sub_diag, Nat.sub_0_r, app_nil_r. cbn [repeat app].
  apply broadcast_dims_ones.
Qed.

Lemma broadcast_channels n c h w :
  c ≠ 3%nat → c ≠ 1%nat →
  broadcast_shapes [n; 3%nat; h; w] [n; c; h; w] = None.
Proof.
  intros H3 H1. unfold broadcast_shapes, pad_shape.
  cbn [length Nat.max Nat.sub repeat app].
  change (broadcast_dims [n; 3%nat; h; w] [n; c; h; w])
    with (rest ← (rest ← broadcast_dims [h; w] [h; w];
                  if decide (3%nat = c) then Some (3%nat :: rest)
                  else if decide (3%nat = 1%nat) then Some (c :: rest)
                  else if decide (c = 1%nat) then Some (3%nat :: rest)
                  else None);
          if decide (n = n) then Some (n :: rest)
          else if decide (n = 1%nat) then Some (n :: rest)
          else if decide (n = 1%nat) then Some (n :: rest)
          else None).
  rewrite broadcast_dims_refl. cbn [mbind option_bind].
  rewrite (decide_False (P := 3%nat = c)) by done.
  rewrite (decide_False (P := 3%nat = 1%nat)) by done.
  rewrite (decide_False (P := c = 1%nat)) by done.
  reflexivity.
Qed.

Lemma tsub_same a b :
  shape a = shape b → ∃ d, tsub a b = Ok (Tensor (shape a) d).
Proof. intros H. unfold tsub. rewrite binop_same_shape by done. eauto. Qed.

Lemma tsub_scalar a b :
  shape a ≠ [] → shape b = [] → ∃ d, tsub a b = Ok (Tensor (shape a) d).
Proof.
  intros Ha Hb. unfold tsub, binop. rewrite Hb.
  rewrite decide_False by done. rewrite broadcast_shapes_scalar. eauto.
Qed.

Lemma tsub_incompatible a b :
  shape a ≠ shape b → broadcast_shapes (shape a) (shape b) = None →
  tsub a b = Raise RuntimeError.
Proof.
  intros Hne Hb. unfold tsub, binop. rewrite decide_False by done.
  by rewrite Hb.
Qed.

Lemma reduce_dim_1 f n d t :
  shape t = [n; d] → ∃ x, reduce_dim f 1 t = Ok (Tensor [n] x).
Proof.
  intros H. unfold reduce_dim. rewrite H.
  rewrite decide_True by (simpl; lia). eauto.
Qed.

Ltac step_ok lem :=
  match goal with
  | |- (?f ?a ?b ≫= _) = _ =>
      let x := fresh "x" in
      let E := fresh "E" in
      destruct (lem a b) as [x E];
      [.. | rewrite E; cbn [mbind result_bind]; clear E]
  end.

Ltac step_reduce n d :=
  match goal with
  | |- (reduce_dim ?f 1 ?t ≫= _) = _ =>
      let x := fresh "x" in
      let E := fresh "E" in
      destruct (reduce_dim_1 f n d t) as [x E];
      [| rewrite E; cbn [mbind result_bind]; clear E]
  end.
(** ** The constructor, further *)

(** X1: without a [hidden_dims] argument the constructor always returns; it
    builds five encoder blocks from a list of its own, and every list the
    caller holds is afterwards as it was. *)
Theorem constructor_default_keeps_lists (σ : gmap positive (list nat))
    ic ld ns :
  ∃ m σ', init σ ic ld None ns = Ok (m, σ')
          ∧ depth m = 5%nat
          ∧ ∀ l, is_Some (σ !! l) → σ' !! l = σ !! l.
Proof.
  destruct (init_default_frame σ ic ld ns) as (m & σ' & E & Hf).
  exists m, σ'. split; [exact E|]. split; [|exact Hf].
  destruct (init_spec σ ic ld None ns m σ' _ eq_refl E)
    as (h0 & h1 & _ & _ & ->).
  reflexivity.
Qed.

(** X2: an empty [hidden_dims] list makes the constructor fail with
    [IndexError] (at [hidden_dims[-1]], line 38). *)
Theorem constructor_empty_list_fails (σ : gmap positive (list nat))
    ic ld l ns :
  σ !! l = Some [] → init σ ic ld (Some l) ns = Raise IndexError.
Proof.
  intros Hl. unfold init, deref. cbn [mbind result_bind].
  rewrite Hl. reflexivity.
Qed.

Lemma constructor_empty_list_fails_witness :
  init {[ 1%positive := [] ]} 3 2 (Some 1%positive) 5 = Raise IndexError.
Proof.
  apply (constructor_empty_list_fails {[ 1%positive := [] ]} 3 2 1%positive 5).
  reflexivity.
Defined.


(** X3: building two models from one list leaves the list as it was, and
    the second model is built from the reversed list: its encoder runs
    through the hidden sizes in the opposite order. *)
Theorem constructor_twice_restores_list (σ : gmap positive (list nat))
    ic ld l xs ns ic' ld' ns' :
  σ !! l = Some xs → xs ≠ [] →
  ∃ m1 σ1 m2,
    init σ ic ld (Some l) ns = Ok (m1, σ1)
    ∧ σ1 !! l = Some (reverse xs)
    ∧ init σ1 ic' ld' (Some l) ns' = Ok (m2, σ)
    ∧ encoder m1 = Sequential (encoder_blocks ic xs)
    ∧ encoder m2 = Sequential (encoder_blocks ic' (reverse xs)).
Proof.
  intros Hl Hne.
  destruct (init_Some_ok σ ic ld l xs ns Hl Hne) as (h0 & h1 & _ & _ & E1).
  assert (Hl1 : <[l := reverse xs]> σ !! l = Some (reverse xs))
    by apply lookup_insert_eq.
  assert (Hne1 : reverse xs ≠ []).
  { intros E. apply (f_equal reverse) in E.
    rewrite reverse_involutive in E. done. }
  destruct (init_Some_ok _ ic' ld' l (reverse xs) ns' Hl1 Hne1)
    as (h2 & h3 & _ & _ & E2).
  rewrite reverse_involutive, insert_insert_eq, (insert_id σ l xs Hl) in E2.
  eexists _, _, _. split; [exact E1|]. split; [exact Hl1|].
  split; [exact E2|]. split; reflexivity.
Qed.

Lemma constructor_twice_restores_list_witness :
  ∃ m1 σ1 m2,
    init {[ 7%positive := [32; 64]%nat ]} 3 2 (Some 7%positive) 5
      = Ok (m1, σ1)
    ∧ σ1 !! 7%positive = Some (reverse [32; 64]%nat)
    ∧ init σ1 3 2 (Some 7%positive) 5
      = Ok (m2, {[ 7%positive := [32; 64]%nat ]})
    ∧ encoder m1 = Sequential (encoder_blocks 3 [32; 64]%nat)
    ∧ encoder m2 = Sequential (encoder_blocks 3 (reverse [32; 64]%nat)).
Proof.
  apply (constructor_twice_restores_list {[ 7%positive := [32; 64]%nat ]}
           3 2 7%positive [32; 64]%nat 5 3 2 5).
  - reflexivity.
  - discriminate.
Defined.

(** ** [encode], further *)


(** X4: which batches of images [encode] accepts.  For a model with
    positive [in_channels], [latent_dim] and hidden sizes, [encode] returns
    on a batch of shape [n; c; h; w] exactly when [c] is [in_channels], [h]
    and [w] are at least 1, and the encoder blocks bring them down to four
    positions (the [* 4] of lines 38-39). *)
Theorem encode_accepts_exactly θ (σ : gmap positive (list nat)) ic ld hd ns
    m σ' xs
    x n c' h w :
  hidden_dims_of σ hd = Some xs → Forall (λ c, 0 < c)%nat xs →
  (0 < ic)%nat → (0 < ld)%nat →
  init σ ic ld hd ns = Ok (m, σ') →
  shape x = [n; c'; h; w] →
  (∃ r, encode θ m x = Ok r)
  ↔ c' = ic ∧ (1 ≤ h)%nat ∧ (1 ≤ w)%nat
    ∧ (halvings (length xs) h * halvings (length xs) w = 4)%nat.
Proof.
  intros Hx Hp Hic Hld Hi Hs. split.
  - intros [r He].
    destruct (init_spec _ _ _ _ _ _ _ _ Hx Hi) as (c & h1 & L & H1 & ->).
    assert (Hc : (0 < c)%nat).
    { apply last_Some_elem_of in L.
      by apply (proj1 (Forall_forall _ _) Hp c). }
    unfold encode in He. cbn [encoder fc_mu fc_var] in He.
    apply bind_ok_inv in He as (t0 & E0 & He).
    apply bind_ok_inv in He as (t1 & E1 & He).
    apply bind_ok_inv in He as (mu & E2 & _).
    rewrite apply_Sequential in E0.
    destruct xs as [|a rest]; [discriminate|].
    destruct (encoder_input_shape _ _ _ _ _ _ _ _ E0)
      as (n0 & h0 & w0 & Hs' & Hh & Hw).
    rewrite Hs in Hs'. injection Hs' as <- <- <- <-.
    destruct (apply_encoder_blocks_ok θ ("encoder"%string, []) (a :: rest) 0
                c' x n h w Hp Hs Hh Hw) as (t0' & E0' & Hs0).
    rewrite E0 in E0'. injection E0' as <-.
    rewrite L in Hs0. change (default c' (Some c)) with c in Hs0.
    unfold flatten1 in E1. rewrite Hs0 in E1. injection E1 as <-.
    rewrite apply_Linear in E2. apply apply_layer_inv in E2 as [E2 _].
    cbn [shape] in E2. apply layer_shape_linear in E2 as [E2 _].
    cbn [numel foldr] in E2. rewrite Nat.mul_1_r in E2.
    repeat split; [done..|]. apply Nat.mul_cancel_l in E2; [exact E2 | lia].
  - intros (-> & Hh & Hw & Hk).
    destruct (encode_total θ σ ic ld hd ns m σ' xs x n h w Hx Hp Hi Hs Hh Hw)
      as (mu & lv & E & _).
    + destruct (init_spec _ _ _ _ _ _ _ _ Hx Hi) as (h0 & h1 & _ & _ & ->).
      unfold depth. cbn [encoder]. by rewrite encoder_blocks_length.
    + eauto.
Qed.

Lemma encode_accepts_exactly_witness :
  (∃ r, encode bias_only tiny (zeros [1; 3; 4; 4]%nat) = Ok r)
  ↔ 3%nat = 3%nat ∧ (1 ≤ 4)%nat ∧ (1 ≤ 4)%nat
    ∧ (halvings (length [512%nat]) 4 * halvings (length [512%nat]) 4
       = 4)%nat.
Proof.
  apply (encode_accepts_exactly bias_only tiny_store 3 1 (Some 1%positive) 5
           tiny tiny_store [512%nat] (zeros [1; 3; 4; 4]%nat)
           1 3 4 4).
  - reflexivity.
  - repeat constructor; lia.
  - lia.
  - lia.
  - vm_compute. reflexivity.
  - reflexivity.
Defined.


(** X5: [encode] returns only on a batch of images: four dimensions, with
    [in_channels] channels and no empty height or width.  A single image
    of three dimensions, or another number of channels, raises. *)
Theorem encode_needs_image_batch θ σ ic ld hd ns m σ' x r :
  init σ ic ld hd ns = Ok (m, σ') →
  encode θ m x = Ok r →
  ∃ n h w, shape x = [n; ic; h; w] ∧ (1 ≤ h)%nat ∧ (1 ≤ w)%nat.
Proof.
  intros Hi He. apply init_inv in Hi as (xs & h0 & h1 & L0 & _ & ->).
  unfold encode in He. cbn [encoder] in He.
  apply bind_ok_inv in He as (t0 & E0 & _).
  rewrite apply_Sequential in E0.
  destruct xs as [|a rest]; [discriminate|].
  by apply encoder_input_shape in E0.
Qed.

Lemma encode_needs_image_batch_witness :
  ∃ n h w, shape (zeros [1; 3; 4; 4]%nat) = [n; 3%nat; h; w]
           ∧ (1 ≤ h)%nat ∧ (1 ≤ w)%nat.
Proof.
  eapply (encode_needs_image_batch bias_only tiny_store 3 1 (Some 1%positive)
            5 tiny tiny_store (zeros [1; 3; 4; 4]%nat)).
  - vm_compute. reflexivity.
  - run. reflexivity.
Defined.

(** ** [decode], further *)

(** X6: for a model with positive [latent_dim] and positive hidden sizes
    that end in 512, [decode] returns on every batch of [n] latents of
    [latent_dim] entries: an image of three channels whose height and width
    are 2 to the number of hidden sizes plus one (64 for the default
    five). *)
Theorem decode_returns_when_last_is_512 θ (σ : gmap positive (list nat))
    ic ld hd ns m σ' xs z n :
  hidden_dims_of σ hd = Some xs → Forall (λ c, 0 < c)%nat xs →
  (0 < ld)%nat →
  init σ ic ld hd ns = Ok (m, σ') →
  last xs = Some 512%nat →
  shape z = [n; ld] →
  ∃ t, decode θ m z = Ok t
    ∧ shape t = [n; 3%nat; (2 ^ (length xs + 1))%nat;
                 (2 ^ (length xs + 1))%nat].
Proof.
  intros Hx Hp Hld Hi L Hs.
  destruct (decode_total θ σ ic ld hd ns m σ' xs z n Hx Hp Hi L Hs)
    as (t & pre & E & Ht & _).
  eauto.
Qed.

Lemma decode_returns_when_last_is_512_witness :
  ∃ t, decode bias_only tiny (zeros [1; 1]%nat) = Ok t
    ∧ shape t = [1; 3; 2 ^ (length [512%nat] + 1);
                 2 ^ (length [512%nat] + 1)]%nat.
Proof.
  apply (decode_returns_when_last_is_512 bias_only tiny_store 3 1
           (Some 1%positive) 5 tiny tiny_store [512%nat]
           (zeros [1; 1]%nat) 1).
  - reflexivity.
  - repeat constructor; lia.
  - lia.
  - vm_compute. reflexivity.
  - reflexivity.
  - reflexivity.
Defined.


(** X7: with hidden sizes that do not end in 512, [decode] raises on every
    latent: line 98 views the output of [decoder_input] as 512 channels,
    and the first transposed convolution expects the last hidden size. *)
Theorem decode_raises_unless_last_is_512 θ (σ : gmap positive (list nat))
    ic ld hd ns m σ' xs c z :
  hidden_dims_of σ hd = Some xs →
  init σ ic ld hd ns = Ok (m, σ') →
  last xs = Some c → c ≠ 512%nat →
  raises (decode θ m z).
Proof.
  intros Hx Hi L Hc.
  destruct (init_spec _ _ _ _ _ _ _ _ Hx Hi) as (h0 & h1 & L0 & H1 & ->).
  rewrite L in L0. injection L0 as <-.
  unfold decode. cbn [decoder_input decoder final_layer].
  destruct (apply θ ("decoder_input"%string, []) (Linear ld (c * 4)) z)
    as [t0|e]; [cbn [mbind result_bind] | eexists; reflexivity].
  destruct (view_512_2_2 t0) as [t1|e] eqn:Ev;
    [cbn [mbind result_bind] | eexists; reflexivity].
  apply view_inv in Ev as [k Hs1].
  destruct (reverse xs) as [|a [|b rest]] eqn:Er.
  - apply (f_equal reverse) in Er. rewrite reverse_involutive in Er.
    subst xs. discriminate.
  - assert (xs = [a]) as ->.
    { apply (f_equal reverse) in Er. by rewrite reverse_involutive in Er. }
    injection L as ->. injection H1 as <-.
    rewrite decoder_blocks_single, apply_Sequential.
    cbn [apply_seq mbind result_bind].
    destruct (apply_deconv_first θ ("final_layer"%string, []) c c k
                [BatchNorm2d c; LeakyReLU; Conv2d c 3 3 1 1; Tanh] t1 Hs1 Hc)
      as [e E].
    rewrite E. eexists; reflexivity.
  - assert (a = c) as ->.
    { pose proof (head_reverse xs) as Hl. rewrite Er, L in Hl.
      simpl in Hl. by injection Hl. }
    rewrite decoder_blocks_cons, apply_Sequential. cbn [apply_seq].
    destruct (apply_deconv_first θ (child ("decoder"%string, []) 0) c b k
                [BatchNorm2d b; LeakyReLU] t1 Hs1 Hc) as [e E].
    rewrite E. eexists; reflexivity.
Qed.

Lemma decode_raises_unless_last_is_512_witness :
  ∃ m σ',
    init {[ 7%positive := [32; 64]%nat ]} 3 2 (Some 7%positive) 5
      = Ok (m, σ')
    ∧ raises (decode bias_only m (zeros [8; 2]%nat)).
Proof.
  eexists _, _. split; [vm_compute; reflexivity|].
  eapply (decode_raises_unless_last_is_512 bias_only
           {[ 7%positive := [32; 64]%nat ]} 3 2 (Some 7%positive) 5 _ _
           [32; 64]%nat 64%nat (zeros [8; 2]%nat)).
  - reflexivity.
  - vm_compute. reflexivity.
  - reflexivity.
  - lia.
Defined.


(** X8: [decode] returns only on latents whose last dimension is
    [latent_dim]. *)
Theorem decode_needs_latent_dim θ σ ic ld hd ns m σ' z t :
  init σ ic ld hd ns = Ok (m, σ') →
  decode θ m z = Ok t →
  last (shape z) = Some ld.
Proof.
  intros Hi Hd. apply init_inv in Hi as (xs & h0 & h1 & _ & _ & ->).
  unfold decode in Hd. cbn [decoder_input decoder final_layer] in Hd.
  apply bind_ok_inv in Hd as (t0 & E & _).
  rewrite apply_Linear in E. apply apply_layer_inv in E as [E _].
  cbn [layer_shape] in E.
  destruct (reverse (shape z)) as [|d outer] eqn:Er; [discriminate|].
  destruct (decide (d = ld)); [subst|discriminate].
  rewrite <- (reverse_involutive (shape z)), Er, last_reverse. reflexivity.
Qed.

Lemma decode_needs_latent_dim_witness :
  last (shape (zeros [1; 1]%nat)) = Some 1%nat.
Proof.
  eapply (decode_needs_latent_dim bias_only tiny_store 3 1 (Some 1%positive)
            5 tiny tiny_store (zeros [1; 1]%nat)).
  - vm_compute. reflexivity.
  - run_shapes. reflexivity.
Defined.

(** X9: every image that [decode] returns has exactly three channels,
    whatever [in_channels] the model was built with. *)
Theorem decode_always_three_channels θ σ ic ld hd ns m σ' z t :
  init σ ic ld hd ns = Ok (m, σ') →
  decode θ m z = Ok t →
  ∃ n h w, shape t = [n; 3%nat; h; w].
Proof.
  intros Hi Hd.
  destruct (decode_inv _ _ _ _ _ _ _ _ _ _ Hi Hd) as (n & a & b & pre & E & _).
  eauto.
Qed.

Lemma decode_always_three_channels_witness :
  ∃ t, decode bias_only tiny (zeros [1; 1]%nat) = Ok t
       ∧ ∃ n h w, shape t = [n; 3%nat; h; w].
Proof.
  eexists. split; [run_shapes; reflexivity|].
  apply (decode_always_three_channels bias_only tiny_store 3 1
           (Some 1%positive) 5 tiny tiny_store (zeros [1; 1]%nat)).
  - vm_compute. reflexivity.
  - run_shapes. reflexivity.
Defined.

(** ** [forward], further *)

(** X11: a forward pass draws one latent per image: it takes
    [n * latent_dim] numbers from the generator for a batch of [n] images,
    whatever [num_samples] is. *)
Theorem forward_draws_once θ σ ic ld hd ns m σ' g input outs g' :
  init σ ic ld hd ns = Ok (m, σ') →
  forward θ m g input = Ok (outs, g') →
  ∃ n, head (shape input) = Some n ∧ g' = advance g (n * ld).
Proof. apply forward_one_draw. Qed.

Lemma forward_draws_once_witness :
  ∃ outs g',
    forward bias_only tiny ones (zeros [1; 3; 4; 4]%nat) = Ok (outs, g')
    ∧ ∃ n, head (shape (zeros [1; 3; 4; 4]%nat)) = Some n
           ∧ g' = advance ones (n * 1).
Proof.
  eexists _, _. split; [run; reflexivity|].
  eapply (forward_draws_once bias_only tiny_store 3 1 (Some 1%positive) 5
            tiny tiny_store ones (zeros [1; 3; 4; 4]%nat)).
  - vm_compute. reflexivity.
  - run. reflexivity.
Defined.






(** ** [loss_function], further *)


(** X15: with fewer than six positional arguments [loss_function] raises
    [IndexError] (lines 130-135). *)
Theorem loss_function_too_few_arguments types_ self (args : list tensor) kwargs :
  (length args < 6)%nat →
  loss_function types_ self args kwargs = Raise IndexError.
Proof.
  intros H. unfold loss_function, item.
  do 6 (destruct args as [|? args]; [reflexivity|]). simpl in H. lia.
Qed.

Lemma loss_function_too_few_arguments_witness :
  loss_function ["List"; "Tensor"]%string tiny
    [zeros [1; 3; 4; 4]%nat; zeros [1; 3; 4; 4]%nat] ∅
  = Raise IndexError.
Proof.
  apply (loss_function_too_few_arguments ["List"; "Tensor"]%string tiny
           [zeros [1; 3; 4; 4]%nat; zeros [1; 3; 4; 4]%nat] ∅).
  simpl. lia.
Defined.


(** X16: with six positional arguments and no keyword [M_N],
    [loss_function] raises [KeyError] for that key (line 137), whatever
    the tensors are. *)
Theorem loss_function_missing_M_N types_ self (args : list tensor)
    (kwargs : gmap string R) :
  (6 ≤ length args)%nat →
  kwargs !! "M_N"%string = None →
  loss_function types_ self args kwargs = Raise (KeyError "M_N").
Proof.
  intros H Hk. unfold loss_function, item, kwarg.
  do 6 (destruct args as [|? args]; [simpl in H; lia|]).
  cbn [lookup list_lookup mbind result_bind]. rewrite Hk. reflexivity.
Qed.

Lemma loss_function_missing_M_N_witness :
  loss_function ["List"; "Tensor"]%string tiny
    [zeros [1; 3; 4; 4]%nat; zeros [1; 3; 4; 4]%nat; zeros [1; 1]%nat;
     zeros [1; 1]%nat; zeros [1; 1]%nat; zeros [1; 1]%nat] ∅
  = Raise (KeyError "M_N").
Proof.
  apply (loss_function_missing_M_N ["List"; "Tensor"]%string tiny
           [zeros [1; 3; 4; 4]%nat; zeros [1; 3; 4; 4]%nat; zeros [1; 1]%nat;
            zeros [1; 1]%nat; zeros [1; 1]%nat; zeros [1; 1]%nat] ∅).
  - simpl. lia.
  - reflexivity.
Defined.


(** X17: on six tensors of the shapes a forward pass produces (a
    reconstruction and an input of one shape [n; c; h; w]; a
    log-variance, a latent and a sixth output of one shape [n; d]) and
    with [M_N] given, lines 139-143 all succeed and [loss_function] raises
    [NameError] for [recons_loss] at line 146, the name not being one that
    [types_] exports. *)
Theorem loss_function_name_error_on_shaped_inputs types_ self recons input
    mu log_var z eps M_N
    (kwargs : gmap string R) n c h w d :
  "recons_loss"%string ∉ types_ →
  kwargs !! "M_N"%string = Some M_N →
  shape recons = [n; c; h; w] → shape input = [n; c; h; w] →
  shape log_var = [n; d] → shape z = [n; d] → shape eps = [n; d] →
  loss_function types_ self [recons; input; mu; log_var; z; eps] kwargs
  = Raise (NameError "recons_loss").
Proof.
  intros Ht Hk Hr Hi Hl Hz He. unfold loss_function, item, kwarg.
  cbn [lookup list_lookup mbind result_bind]. rewrite Hk.
  cbn [mbind result_bind].
  step_ok tsub_same; [congruence|].
  unfold flatten1. cbn [tsquare tmap shape]. rewrite Hr.
  cbn [mbind result_bind].
  unfold tmean_last, tmean_dim. cbn [shape length Nat.sub].
  step_reduce n (numel [c; h; w]); [reflexivity|].
  step_ok tsub_scalar; [cbn [smul tsquare tmap shape]; by rewrite He | reflexivity |].
  step_ok tsub_same; [cbn [smul tsquare tmap shape]; congruence|].
  unfold tsum_dim.
  step_reduce n d; [cbn [smul tsquare tmap shape]; by rewrite He|].
  step_ok tsub_scalar; [cbn [smul tsquare tmap shape]; by rewrite Hz | reflexivity |].
  step_reduce n d; [cbn [smul tsquare tmap shape]; by rewrite Hz|].
  rewrite importance_weights_unbound by done. reflexivity.
Qed.

Lemma loss_function_name_error_on_shaped_inputs_witness :
  loss_function ["List"; "Tensor"]%string tiny
    [zeros [2; 3; 4; 4]%nat; zeros [2; 3; 4; 4]%nat; zeros [2; 5]%nat;
     zeros [2; 5]%nat; zeros [2; 5]%nat; zeros [2; 5]%nat]
    {[ "M_N"%string := 1 ]}
  = Raise (NameError "recons_loss").
Proof.
  apply (loss_function_name_error_on_shaped_inputs ["List"; "Tensor"]%string
           tiny (zeros [2; 3; 4; 4]%nat) (zeros [2; 3; 4; 4]%nat)
           (zeros [2; 5]%nat) (zeros [2; 5]%nat) (zeros [2; 5]%nat)
           (zeros [2; 5]%nat) 1 {[ "M_N"%string := 1 ]} 2 3 4 4 5).
  - intros H. repeat (apply elem_of_cons in H as [H|H]; [discriminate H|]).
    by apply elem_of_nil in H.
  - reflexivity.
  - reflexivity.
  - reflexivity.
  - reflexivity.
  - reflexivity.
  - reflexivity.
Defined.


(** X18: a reconstruction of three channels cannot be subtracted from an
    input of [c] channels unless [c] is 3 or 1: [loss_function] then
    raises [RuntimeError] at line 139.  So it is for the outputs of
    [forward] of any model built with such an [in_channels]. *)
Theorem loss_function_channel_mismatch types_ self recons input mu log_var
    z eps M_N
    (kwargs : gmap string R) n c h w :
  kwargs !! "M_N"%string = Some M_N →
  shape recons = [n; 3%nat; h; w] → shape input = [n; c; h; w] →
  c ≠ 3%nat → c ≠ 1%nat →
  loss_function types_ self [recons; input; mu; log_var; z; eps] kwargs
  = Raise RuntimeError.
Proof.
  intros Hk Hr Hi H3 H1. unfold loss_function, item, kwarg.
  cbn [lookup list_lookup mbind result_bind]. rewrite Hk.
  cbn [mbind result_bind].
  rewrite (tsub_incompatible recons input); [reflexivity | congruence |].
  rewrite Hr, Hi. by apply broadcast_channels.
Qed.

Lemma loss_function_channel_mismatch_witness :
  loss_function ["List"; "Tensor"]%string tiny
    [zeros [1; 3; 4; 4]%nat; zeros [1; 4; 4; 4]%nat; zeros [1; 1]%nat;
     zeros [1; 1]%nat; zeros [1; 1]%nat; zeros [1; 1]%nat]
    {[ "M_N"%string := 1 ]}
  = Raise RuntimeError.
Proof.
  apply (loss_function_channel_mismatch ["List"; "Tensor"]%string tiny
           (zeros [1; 3; 4; 4]%nat) (zeros [1; 4; 4; 4]%nat)
           (zeros [1; 1]%nat) (zeros [1; 1]%nat) (zeros [1; 1]%nat)
           (zeros [1; 1]%nat) 1 {[ "M_N"%string := 1 ]} 1 4 4 4).
  - reflexivity.
  - reflexivity.
  - reflexivity.
  - lia.
  - lia.
Defined.


(** ** [sample] *)



